(** * gocov/convert: statement extents and block matching

    A shallow embedding of [convert.go].  The file converts the block
    coverage profiles written by the Go tool chain into per-statement
    coverage records: it walks the syntax tree of each source file to
    find function and statement extents ([FuncVisitor], [StmtVisitor]),
    matches them against the profile blocks ([convertProfile]) and
    groups the result by package ([ConvertProfiles]).

    Go's [int] and [token.Pos] are modelled as [Z]; the only arithmetic
    that can wrap is the [int64] counter [Reached], whose wrap-around is
    written out.  Maps are [gmap]s; a run-time panic and an [error]
    result are kept apart in the type [outcome]. *)

From Stdlib Require Import ZArith Lia Ascii.
From stdpp Require Import gmap strings list fin_maps sorting pretty.

Open Scope Z_scope.

(** ** Results of Go calls *)

(** A Go [error] value; only its message is kept. *)
Definition error := string.

(** What a call does: it returns, it returns a non-nil [error], or the
    goroutine panics (nothing in [convert.go] recovers). *)
Inductive outcome (A : Type) : Type :=
| Done (a : A)
| Failed (err : error)
| Panicked (msg : string).

Arguments Done {A} a.
Arguments Failed {A} err.
Arguments Panicked {A} msg.

#[global] Instance outcome_ret : MRet outcome := fun A a => Done a.
#[global] Instance outcome_bind : MBind outcome := fun A B k c =>
  match c with
  | Done a => k a
  | Failed e => Failed e
  | Panicked m => Panicked m
  end.

(** The message of the run-time panics the code can raise. *)
Definition nilDereference : string :=
  "runtime error: invalid memory address or nil pointer dereference".
Definition indexOutOfRange : string :=
  "runtime error: index out of range [0] with length 0".

(** ** Positions (go/token)

    [findFuncs] makes a fresh [token.FileSet] and parses one file into
    it, so the set holds a single [token.File]: its [base], its [size]
    and the byte offsets at which its lines start.  [Position] follows
    [FileSet.Position] for such a set (no [//line] directives). *)

Definition NoPos : Z := 0.

Record File := { base : Z; size : Z; lines : list Z }.

Record Position := { Offset : Z; Line : Z; Column : Z }.

(** [searchInts a x]: the index of the last entry of the ascending
    table [a] that is at most [x], or -1. *)
Fixpoint searchInts (a : list Z) (x : Z) : Z :=
  match a with
  | [] => -1
  | y :: r => if y <=? x then 1 + searchInts r x else -1
  end.

Definition unpack (f : File) (offset : Z) : Z * Z :=
  let i := searchInts (lines f) offset in
  if 0 <=? i then (i + 1, offset - nth (Z.to_nat i) (lines f) 0 + 1) else (0, 0).

Definition fileOf (f : File) (p : Z) : bool :=
  (base f <=? p) && (p <=? base f + size f).

Definition Position_of (f : File) (p : Z) : Position :=
  if negb (p =? NoPos) && fileOf f p then
    let offset := p - base f in
    let '(line, column) := unpack f offset in
    {| Offset := offset; Line := line; Column := column |}
  else {| Offset := 0; Line := 0; Column := 0 |}.

(** ** Syntax trees (go/ast), as far as [convert.go] reads them *)

Inductive Token :=
| ASSIGN | DEFINE
| ADD_ASSIGN | SUB_ASSIGN | MUL_ASSIGN | QUO_ASSIGN | REM_ASSIGN
| AND_ASSIGN | OR_ASSIGN | XOR_ASSIGN | SHL_ASSIGN | SHR_ASSIGN
| AND_NOT_ASSIGN
| INC | DEC
| BREAK | CONTINUE | GOTO | FALLTHROUGH.

Definition Token_String (t : Token) : string :=
  match t with
  | ASSIGN => "=" | DEFINE => ":="
  | ADD_ASSIGN => "+=" | SUB_ASSIGN => "-=" | MUL_ASSIGN => "*="
  | QUO_ASSIGN => "/=" | REM_ASSIGN => "%="
  | AND_ASSIGN => "&=" | OR_ASSIGN => "|=" | XOR_ASSIGN => "^="
  | SHL_ASSIGN => "<<=" | SHR_ASSIGN => ">>=" | AND_NOT_ASSIGN => "&^="
  | INC => "++" | DEC => "--"
  | BREAK => "break" | CONTINUE => "continue" | GOTO => "goto"
  | FALLTHROUGH => "fallthrough"
  end.

(** Go's [len] of a string constant, as a position offset. *)
Definition len (s : string) : Z := Z.of_nat (String.length s).

Record Ident := { NamePos : Z; Name : string }.

(** Expressions: the three shapes [exprName] tells apart, and every
    other expression as its source range. *)
Inductive Expr :=
| EIdent (id : Ident)
| StarExpr (Star : Z) (X : Expr)
| IndexExpr (X : Expr) (Lbrack : Z) (Index : Expr) (Rbrack : Z)
| OtherExpr (From To : Z).

(** The declaration inside a [DeclStmt] (always a [GenDecl]). *)
Record GenDecl := { DeclPos : Z; DeclEnd : Z }.

Record BlockOf (S : Type) := { Lbrace : Z; List : list S; Rbrace : Z }.
Arguments Lbrace {S} _.
Arguments List {S} _.
Arguments Rbrace {S} _.
Arguments Build_BlockOf {S} _ _ _.

(** Induction over statements goes through the lists, options and
    blocks that hold their children. *)
Scheme All for list.
Scheme All for option.
Scheme All for BlockOf.

Inductive Stmt :=
| BadStmt (From To : Z)
| DeclStmt (Decl : GenDecl)
| EmptyStmt (Semicolon : Z) (Implicit : bool)
| LabeledStmt (Label : Ident) (Colon : Z) (S : Stmt)
| ExprStmt (X : Expr)
| SendStmt (Chan : Expr) (Arrow : Z) (Value : Expr)
| IncDecStmt (X : Expr) (TokPos : Z) (Tok : Token)
| AssignStmt (Lhs : list Expr) (TokPos : Z) (Tok : Token) (Rhs : list Expr)
| GoStmt (Go : Z) (Call : Expr)
| DeferStmt (Defer : Z) (Call : Expr)
| ReturnStmt (Return : Z) (Results : list Expr)
| BranchStmt (TokPos : Z) (Tok : Token) (Label : option Ident)
| BlockStmt (b : BlockOf Stmt)
| IfStmt (If : Z) (Init : option Stmt) (Cond : option Expr)
         (Body : BlockOf Stmt) (Else : option Stmt)
| CaseClause (Case : Z) (Colon : Z) (Body : list Stmt)
| SwitchStmt (Switch : Z) (Init : option Stmt) (Body : BlockOf Stmt)
| TypeSwitchStmt (Switch : Z) (Init : option Stmt) (Assign : option Stmt)
                 (Body : BlockOf Stmt)
| CommClause (Case : Z) (Colon : Z) (Body : list Stmt)
| SelectStmt (Select : Z) (Body : BlockOf Stmt)
| ForStmt (For : Z) (Init : option Stmt) (Cond : option Expr)
          (Post : option Stmt) (Body : BlockOf Stmt)
| RangeStmt (For : Z) (X : Expr) (Body : BlockOf Stmt).

Abbreviation BlockStmtT := (BlockOf Stmt).

(** [ast.Node]: what has a first position and an end position. *)
Class Node (A : Type) := { Pos : A -> Z; End : A -> Z }.

#[global] Instance Ident_Node : Node Ident :=
  {| Pos := NamePos; End := fun x => NamePos x + len (Name x) |}.

Fixpoint Expr_Pos (x : Expr) : Z :=
  match x with
  | EIdent id => NamePos id
  | StarExpr star _ => star
  | IndexExpr x _ _ _ => Expr_Pos x
  | OtherExpr from _ => from
  end.

Fixpoint Expr_End (x : Expr) : Z :=
  match x with
  | EIdent id => NamePos id + len (Name id)
  | StarExpr _ x => Expr_End x
  | IndexExpr _ _ _ rbrack => rbrack + 1
  | OtherExpr _ to => to
  end.

#[global] Instance Expr_Node : Node Expr := {| Pos := Expr_Pos; End := Expr_End |}.
#[global] Instance GenDecl_Node : Node GenDecl := {| Pos := DeclPos; End := DeclEnd |}.

Definition Stmt_Pos (s : Stmt) : Z :=
  match s with
  | BadStmt from _ => from
  | DeclStmt d => Pos d
  | EmptyStmt semi _ => semi
  | LabeledStmt l _ _ => Pos l
  | ExprStmt x => Pos x
  | SendStmt c _ _ => Pos c
  | IncDecStmt x _ _ => Pos x
  | AssignStmt lhs tokpos _ _ => match lhs with x :: _ => Pos x | [] => tokpos end
  | GoStmt go _ => go
  | DeferStmt defer _ => defer
  | ReturnStmt ret _ => ret
  | BranchStmt tokpos _ _ => tokpos
  | BlockStmt b => Lbrace b
  | IfStmt i _ _ _ _ => i
  | CaseClause c _ _ => c
  | SwitchStmt sw _ _ => sw
  | TypeSwitchStmt sw _ _ _ => sw
  | CommClause c _ _ => c
  | SelectStmt sel _ => sel
  | ForStmt f _ _ _ _ => f
  | RangeStmt f _ _ => f
  end.

(** The end of the last expression of a list, [dflt] for an empty one. *)
Definition lastEnd (l : list Expr) (dflt : Z) : Z :=
  match last l with Some x => End x | None => dflt end.

(** [End()] of the statement kinds.  A block without a valid closing
    brace ends with its last statement; the parser builds no assignment
    without a right-hand side, [AssignStmt] then ends after its
    operator here. *)
Fixpoint Stmt_End (s : Stmt) : Z :=
  let lastStmtEnd := fix lastStmtEnd (l : list Stmt) (dflt : Z) : Z :=
    match l with
    | [] => dflt
    | x :: r => lastStmtEnd r (Stmt_End x)
    end in
  let blockEnd := fun (lbrace : Z) (l : list Stmt) (rbrace : Z) =>
    if negb (rbrace =? NoPos) then rbrace + 1 else lastStmtEnd l (lbrace + 1) in
  match s with
  | BadStmt _ to => to
  | DeclStmt d => End d
  | EmptyStmt semi implicit => if implicit then semi else semi + 1
  | LabeledStmt _ _ s => Stmt_End s
  | ExprStmt x => End x
  | SendStmt _ _ v => End v
  | IncDecStmt _ tokpos _ => tokpos + 2
  | AssignStmt _ tokpos tok rhs => lastEnd rhs (tokpos + len (Token_String tok))
  | GoStmt _ call => End call
  | DeferStmt _ call => End call
  | ReturnStmt ret results => lastEnd results (ret + 6)
  | BranchStmt tokpos tok label =>
      match label with
      | Some l => End l
      | None => tokpos + len (Token_String tok)
      end
  | BlockStmt b => blockEnd (Lbrace b) (List b) (Rbrace b)
  | IfStmt _ _ _ body els =>
      match els with
      | Some e => Stmt_End e
      | None => blockEnd (Lbrace body) (List body) (Rbrace body)
      end
  | CaseClause _ colon body => lastStmtEnd body (colon + 1)
  | SwitchStmt _ _ body => blockEnd (Lbrace body) (List body) (Rbrace body)
  | TypeSwitchStmt _ _ _ body => blockEnd (Lbrace body) (List body) (Rbrace body)
  | CommClause _ colon body => lastStmtEnd body (colon + 1)
  | SelectStmt _ body => blockEnd (Lbrace body) (List body) (Rbrace body)
  | ForStmt _ _ _ _ body => blockEnd (Lbrace body) (List body) (Rbrace body)
  | RangeStmt _ _ body => blockEnd (Lbrace body) (List body) (Rbrace body)
  end.

#[global] Instance Stmt_Node : Node Stmt := {| Pos := Stmt_Pos; End := Stmt_End |}.

Definition BlockStmt_End (b : BlockStmtT) : Z := Stmt_End (BlockStmt b).

#[global] Instance BlockStmt_Node : Node BlockStmtT :=
  {| Pos := Lbrace; End := BlockStmt_End |}.

(** Function literals and declarations.  [FuncType] is reduced to the
    position of its [func] keyword and to its end. *)
Record FuncLit := { LitFunc : Z; LitBody : BlockStmtT }.

Record Field := { Type_ : Expr }.

Record FuncDecl := {
  Recv : option (list Field);
  DeclName : Ident;
  DeclFunc : Z;
  DeclTypeEnd : Z;
  DeclBody : option BlockStmtT
}.

#[global] Instance FuncLit_Node : Node FuncLit :=
  {| Pos := LitFunc; End := fun n => End (LitBody n) |}.

#[global] Instance FuncDecl_Node : Node FuncDecl :=
  {| Pos := DeclFunc;
     End := fun d => match DeclBody d with
                     | Some b => End b
                     | None => DeclTypeEnd d
                     end |}.

(** The nodes [ast.Walk] hands to [FuncVisitor.Visit]. *)
Inductive AstNode :=
| NFuncLit (n : FuncLit)
| NFuncDecl (n : FuncDecl)
| NOther (From To : Z).

#[global] Instance AstNode_Node : Node AstNode :=
  {| Pos := fun n => match n with
                     | NFuncLit n => Pos n
                     | NFuncDecl n => Pos n
                     | NOther from _ => from
                     end;
     End := fun n => match n with
                     | NFuncLit n => End n
                     | NFuncDecl n => End n
                     | NOther _ to => to
                     end |}.

(** ** Extents *)

Record extent := {
  startOffset : Z;
  startLine : Z;
  startCol : Z;
  endOffset : Z;
  endLine : Z;
  endCol : Z
}.

(** [StmtExtent] describes a statement's extent in the source. *)
Definition StmtExtent := extent.

(** [FuncExtent] describes a function's extent in the source. *)
Record FuncExtent := {
  ext : extent;
  name : string;
  stmts : list StmtExtent
}.

(** The extent between two positions of the file. *)
Definition mkExtent (fset : File) (p q : Z) : extent :=
  let start := Position_of fset p in
  let end_ := Position_of fset q in
  {| startOffset := Offset start;
     startLine := Line start;
     startCol := Column start;
     endOffset := Offset end_;
     endLine := Line end_;
     endCol := Column end_ |}.

(** ** StmtVisitor

    The visitor appends to [v.function.stmts]; the list is threaded
    through the calls. *)

Definition collectExpr {A} `{Node A} (fset : File) (node : A)
    (stmts : list StmtExtent) : list StmtExtent :=
  stmts ++ [mkExtent fset (Pos node) (End node)].

Definition collectToken (fset : File) (pos : Z) (statement : string)
    (stmts : list StmtExtent) : list StmtExtent :=
  stmts ++ [mkExtent fset pos (pos + len statement)].

Definition backupToElse : Z := len "else ".

(** [VisitStmt] rewrites the else branches of the tree it walks in
    place, so it returns the statement as it is left behind, with the
    extended list.  The two calls [v.VisitStmt(s.Else)] on a rewritten
    else branch are unfolded one step, down to the statements of the
    original tree: [VisitStmt_else] states them as the source does. *)
Fixpoint VisitStmt (fset : File) (s : Stmt) (stmts : list StmtExtent)
    {struct s} : outcome (Stmt * list StmtExtent) :=
  let visitList :=
    fix visitList (l : list Stmt) (stmts : list StmtExtent)
        : outcome (list Stmt * list StmtExtent) :=
      match l with
      | [] => Done ([], stmts)
      | stmt :: rest =>
          '(stmt', stmts) ← VisitStmt fset stmt stmts;
          '(rest', stmts) ← visitList rest stmts;
          Done (stmt' :: rest', stmts)
      end in
  let visitBlock := fun (lbrace : Z) (l : list Stmt) (rbrace : Z) stmts =>
    '(l', stmts) ← visitList l stmts;
    Done (Build_BlockOf lbrace l' rbrace, stmts) in
  let visitInit := fun (init : Stmt) stmts =>
    '(init', stmts) ← VisitStmt fset init stmts;
    Done (Some init', stmts) in
  match s with
  | DeclStmt d => Done (s, collectExpr fset d stmts)
  | EmptyStmt _ _ => Done (s, stmts)
  | LabeledStmt l c s0 =>
      '(s0', stmts) ← VisitStmt fset s0 stmts;
      Done (LabeledStmt l c s0', stmts)
  | ExprStmt x => Done (s, collectExpr fset x stmts)
  | SendStmt chan _ _ => Done (s, collectExpr fset chan stmts)
  | IncDecStmt x _ _ => Done (s, collectExpr fset x stmts)
  | AssignStmt _ tokpos _ _ => Done (s, collectToken fset tokpos "=" stmts)
  | GoStmt go _ => Done (s, collectToken fset go "go" stmts)
  | DeferStmt defer _ => Done (s, collectToken fset defer "defer" stmts)
  | ReturnStmt ret _ => Done (s, collectToken fset ret "return" stmts)
  | BranchStmt tokpos _ label =>
      let stmts := match label with
                   | Some l => collectExpr fset l stmts
                   | None => stmts
                   end in
      Done (s, collectToken fset tokpos "g" stmts)
  | BlockStmt b =>
      '(b', stmts) ← visitBlock (Lbrace b) (List b) (Rbrace b) stmts;
      Done (BlockStmt b', stmts)
  | IfStmt if_ init cond body els =>
      '(init', stmts) ←
        match init with
        | Some i => visitInit i stmts
        | None =>
            match cond with
            | Some c => Done (None, collectExpr fset c stmts)
            | None => Done (None, stmts)
            end
        end;
      '(body', stmts) ← visitBlock (Lbrace body) (List body) (Rbrace body) stmts;
      match els with
      | None => Done (IfStmt if_ init' cond body' None, stmts)
      | Some (IfStmt if2 _ _ _ _ as stmt) =>
          (* block := &ast.BlockStmt{Lbrace: stmt.If - backupToElse,
               List: []ast.Stmt{stmt}, Rbrace: stmt.End()} *)
          let rbrace := End stmt in
          '(stmt', stmts) ← VisitStmt fset stmt stmts;
          let block := Build_BlockOf (if2 - backupToElse) [stmt'] rbrace in
          Done (IfStmt if_ init' cond body' (Some (BlockStmt block)), stmts)
      | Some (BlockStmt b) =>
          (* stmt.Lbrace -= backupToElse *)
          '(b', stmts) ←
            visitBlock (Lbrace b - backupToElse) (List b) (Rbrace b) stmts;
          Done (IfStmt if_ init' cond body' (Some (BlockStmt b')), stmts)
      | Some _ => Panicked "unexpected node type in if"
      end
  | CaseClause c colon body =>
      '(body', stmts) ← visitList body stmts;
      Done (CaseClause c colon body', stmts)
  | SwitchStmt sw init body =>
      '(init', stmts) ←
        match init with
        | Some i => visitInit i stmts
        | None => Done (None, collectToken fset sw "switch" stmts)
        end;
      '(body', stmts) ← visitBlock (Lbrace body) (List body) (Rbrace body) stmts;
      Done (SwitchStmt sw init' body', stmts)
  | TypeSwitchStmt sw init assign body =>
      '(init', assign', stmts) ←
        match init with
        | Some i =>
            '(i', stmts) ← VisitStmt fset i stmts;
            Done (Some i', assign, stmts)
        | None =>
            match assign with
            | Some a =>
                '(a', stmts) ← VisitStmt fset a stmts;
                Done (None, Some a', stmts)
            | None =>
                Done (None, None,
                      stmts ++ [mkExtent fset sw (sw + len "switch")])
            end
        end;
      '(body', stmts) ← visitBlock (Lbrace body) (List body) (Rbrace body) stmts;
      Done (TypeSwitchStmt sw init' assign' body', stmts)
  | CommClause c colon body =>
      '(body', stmts) ← visitList body stmts;
      Done (CommClause c colon body', stmts)
  | SelectStmt sel body =>
      let stmts := stmts ++ [mkExtent fset sel (sel + len "select")] in
      '(body', stmts) ← visitBlock (Lbrace body) (List body) (Rbrace body) stmts;
      Done (SelectStmt sel body', stmts)
  | ForStmt for_ init cond post body =>
      '(init', post', stmts) ←
        match init with
        | Some i =>
            '(i', stmts) ← VisitStmt fset i stmts;
            Done (Some i', post, stmts)
        | None =>
            match cond with
            | Some c =>
                Done (None, post, stmts ++ [mkExtent fset (Pos c) (End c)])
            | None =>
                match post with
                | Some p =>
                    '(p', stmts) ← VisitStmt fset p stmts;
                    Done (None, Some p', stmts)
                | None => Done (None, None, collectToken fset for_ "for" stmts)
                end
            end
        end;
      '(body', stmts) ← visitBlock (Lbrace body) (List body) (Rbrace body) stmts;
      Done (ForStmt for_ init' cond post' body', stmts)
  | RangeStmt for_ x body =>
      let stmts := stmts ++ [mkExtent fset (Pos x) (End x)] in
      '(body', stmts) ← visitBlock (Lbrace body) (List body) (Rbrace body) stmts;
      Done (RangeStmt for_ x body', stmts)
  | BadStmt _ _ => Done (s, stmts)
  end.

(** ** FuncVisitor *)

Fixpoint exprName (x : Expr) : string :=
  match x with
  | StarExpr _ y => exprName y
  | IndexExpr y _ index _ => exprName y +:+ "[" +:+ exprName index +:+ "]"
  | EIdent y => Name y
  | OtherExpr _ _ => ""
  end.

(** [f.Recv.List[0]] panics on a receiver list without entry. *)
Definition functionName (f : FuncDecl) : outcome string :=
  let name := Name (DeclName f) in
  match Recv f with
  | None => Done name
  | Some [] => Panicked indexOutOfRange
  | Some (recv :: _) => Done (exprName (Type_ recv) +:+ "." +:+ name)
  end.

(** [fmt.Sprintf("@%d:%d", line, column)]. *)
Definition literalName (line column : Z) : string :=
  "@" +:+ pretty line +:+ ":" +:+ pretty column.

(** [Visit] appends the function's extent to [v.funcs] and lets a
    [StmtVisitor] fill in its statements; the extent is shared by
    pointer, so the entry of [v.funcs] ends up with them. *)
Definition Visit (fset : File) (node : AstNode) (funcs : list FuncExtent)
    : outcome (list FuncExtent) :=
  '(body, name) ←
    match node with
    | NFuncLit n => Done (Some (LitBody n), "")
    | NFuncDecl n => name ← functionName n; Done (DeclBody n, name)
    | NOther _ _ => Done (None, "")
    end;
  match body with
  | Some body =>
      let start := Position_of fset (Pos node) in
      let end_ := Position_of fset (End node) in
      let name := if decide (name = "")
                  then literalName (Line start) (Column start)
                  else name in
      '(_, stmts) ← VisitStmt fset (BlockStmt body) [];
      Done (funcs ++ [{| name := name;
                         ext := mkExtent fset (Pos node) (End node);
                         stmts := stmts |}])
  | None => Done funcs
  end.

(** [ast.Walk] calls [Visit] on the nodes of the file, parents first and
    in source order; [Visit] never prunes the walk. *)
Fixpoint walk (fset : File) (nodes : list AstNode) (funcs : list FuncExtent)
    : outcome (list FuncExtent) :=
  match nodes with
  | [] => Done funcs
  | node :: rest => funcs ← Visit fset node funcs; walk fset rest funcs
  end.

(** A parsed file: its position table and its nodes in the order of
    [ast.Walk].  The in-place rewriting by [VisitStmt] changes the start
    of else blocks only, which no later [Visit] reads. *)
Record ParsedFile := { fset_of : File; nodes_of : list AstNode }.

(** ** Coverage profiles (golang.org/x/tools/cover) and results (gocov) *)

Record ProfileBlock := {
  StartLine : Z; StartCol : Z;
  EndLine : Z; EndCol : Z;
  NumStmt : Z; Count : Z
}.

Record Profile := { FileName : string; Mode : string; Blocks : list ProfileBlock }.

Record Statement := { Start : Z; End_ : Z; Reached : Z }.

Record Function := {
  FName : string;
  FFile : string;
  FStart : Z;
  FEnd : Z;
  Statements : list Statement
}.

Record Package := { PName : string; Functions : list Function }.

#[global] Instance Statement_eq_dec : EqDecision Statement.
Proof. solve_decision. Defined.
#[global] Instance Function_eq_dec : EqDecision Function.
Proof. solve_decision. Defined.
#[global] Instance Package_eq_dec : EqDecision Package.
Proof. solve_decision. Defined.

(** Conversion to [int64]: the value modulo 2^64, as a signed number. *)
Definition int64 (x : Z) : Z := (x + 2 ^ 63) mod 2 ^ 64 - 2 ^ 63.

(** ** The block matcher of [convertProfile] *)

(** "Past the end of the statement". *)
Definition past (b : ProfileBlock) (s : StmtExtent) : bool :=
  (endLine s <? StartLine b)
  || ((StartLine b =? endLine s) && (endCol s <=? StartCol b)).

(** "Before the beginning of the statement". *)
Definition before (b : ProfileBlock) (s : StmtExtent) : bool :=
  (EndLine b <? startLine s)
  || ((EndLine b =? startLine s) && (EndCol b <=? startCol s)).

(** The loop over the blocks for one statement: [break] on the first
    block past the statement, [continue] on a block before it,
    otherwise [s.Reached += int64(b.Count)]. *)
Fixpoint matchBlocks (s : StmtExtent) (blocks : list ProfileBlock)
    (reached : Z) : Z :=
  match blocks with
  | [] => reached
  | b :: rest =>
      if past b s then reached
      else if before b s then matchBlocks s rest reached
      else matchBlocks s rest (int64 (reached + int64 (Count b)))
  end.

(** The statement record of an extent once the blocks are matched: it
    is created with [Reached] 0 and owned by one wrapper of [stmts]. *)
Definition matchStatement (blocks : list ProfileBlock) (se : StmtExtent)
    : Statement :=
  {| Start := startOffset se; End_ := endOffset se;
     Reached := matchBlocks se blocks 0 |}.

Definition convertFunction (absFilePath : string) (blocks : list ProfileBlock)
    (fe : FuncExtent) : Function :=
  {| FName := name fe;
     FFile := absFilePath;
     FStart := startOffset (ext fe);
     FEnd := endOffset (ext fe);
     Statements := matchStatement blocks <$> stmts fe |}.

(** ** Paths (path, path/filepath, strings) *)

Definition isSlash (c : ascii) : bool := bool_decide (c = "/"%char).

(** [path.Split]: the path is cut right after its final slash. *)
Fixpoint path_Split (p : string) : string * string :=
  match p with
  | EmptyString => (EmptyString, EmptyString)
  | String c r =>
      let '(dir, file) := path_Split r in
      if bool_decide (dir = EmptyString) then
        if isSlash c then (String c EmptyString, r) else (EmptyString, String c r)
      else (String c dir, file)
  end.

(** [strings.TrimSuffix]. *)
Definition TrimSuffix (s suffix : string) : string :=
  let n := String.length s in
  let k := String.length suffix in
  if (k <=? n)%nat && String.eqb (String.substring (n - k) k s) suffix
  then String.substring 0 (n - k) s
  else s.

Fixpoint stripTrailingSlashes (p : string) : string :=
  match p with
  | EmptyString => EmptyString
  | String c r =>
      let r' := stripTrailingSlashes r in
      if bool_decide (r' = EmptyString) && isSlash c then EmptyString
      else String c r'
  end.

(** [filepath.Base], with the slash as separator. *)
Definition filepath_Base (p : string) : string :=
  if bool_decide (p = EmptyString) then "."
  else
    let file := snd (path_Split (stripTrailingSlashes p)) in
    if bool_decide (file = EmptyString) then "/" else file.

(** ** The collaborators of [ConvertProfiles] *)

(** [packages.Package], with the two fields that are loaded. *)
Record GoPackage := { PkgPath : string; CompiledGoFiles : list string }.

(** What [ConvertProfiles] calls outside this repository: the profile
    reader, the package resolver, the parser (with the walk of its
    tree), [path.Dir] (whose [path.Clean] is not modelled) and the JSON
    encoder.  All of them are functions of the files they read. *)
Record Collaborators := {
  ParseProfiles : string -> outcome (list Profile);
  Load : list string -> outcome (list GoPackage);
  ParseFile : string -> outcome ParsedFile;
  path_Dir : string -> string;
  marshalJson : list Package -> outcome (list Byte.byte)
}.

(** [fmt.Errorf] with a prefix before the wrapped error. *)
Definition wrapError {A} (prefix : string) (c : outcome A) : outcome A :=
  match c with
  | Failed e => Failed (prefix +:+ e)
  | _ => c
  end.

Section Orchestrator.

Variable env : Collaborators.

(** [gocovutil.Packages.AddPackage] is not part of [convert.go]; the
    orchestrator is stated for any accumulator. *)
Variable AddPackage : list Package -> Package -> list Package.

(** Go leaves the order in which [range] visits a map open, and it
    changes from run to run: [rangeOrder i m] is the order taken for
    [converter.packages] in pass [i] of the loop over the inputs. *)
Variable rangeOrder : nat -> gmap string Package -> list Package.

(** [findFuncs] parses the file and returns its function extents. *)
Definition findFuncs (name : string) : outcome (list FuncExtent) :=
  parsedFile ← ParseFile env name;
  walk (fset_of parsedFile) (nodes_of parsedFile) [].

Definition convertProfile (c : gmap string Package) (p : Profile)
    (absFilePath pkgPath : string) : outcome (gmap string Package) :=
  let pkg := default {| PName := pkgPath; Functions := [] |} (c !! pkgPath) in
  extents ← findFuncs absFilePath;
  let fs := convertFunction absFilePath (Blocks p) <$> extents in
  Done (<[pkgPath := {| PName := PName pkg;
                        Functions := Functions pkg ++ fs |}]> c).

(** The loop over [pkg.CompiledGoFiles] for one profile entry. *)
Fixpoint convertFiles (c : gmap string Package) (profile : Profile)
    (filename pkgPath : string) (files : list string)
    : outcome (gmap string Package) :=
  match files with
  | [] => Done c
  | abspath :: rest =>
      if decide (filepath_Base abspath = filename) then
        c ← wrapError ("convert profile " +:+ FileName profile +:+ ": ")
              (convertProfile c profile abspath pkgPath);
        convertFiles c profile filename pkgPath rest
      else convertFiles c profile filename pkgPath rest
  end.

(** The second loop over the profiles.  A missing key of [pkgmap]
    gives the nil pointer, which [pkg.CompiledGoFiles] dereferences. *)
Fixpoint convertEntries (c : gmap string Package)
    (pkgmap : gmap string GoPackage) (profiles : list Profile)
    : outcome (gmap string Package) :=
  match profiles with
  | [] => Done c
  | profile :: rest =>
      let '(pkgpath, filename) := path_Split (FileName profile) in
      let pkgpath := TrimSuffix pkgpath "/" in
      match pkgmap !! pkgpath with
      | None => Panicked nilDereference
      | Some pkg =>
          c ← convertFiles c profile filename (PkgPath pkg)
                (CompiledGoFiles pkg);
          convertEntries c pkgmap rest
      end
  end.

(** The first loop over the profiles: the distinct package names, in
    order of first appearance. *)
Fixpoint uniqPackageNames (profiles : list Profile) (seen : gset string)
    (names : list string) : list string :=
  match profiles with
  | [] => names
  | profile :: rest =>
      let packageName := path_Dir env (FileName profile) in
      if decide (packageName ∈ seen) then uniqPackageNames rest seen names
      else uniqPackageNames rest ({[packageName]} ∪ seen)
             (names ++ [packageName])
  end.

Definition mkPkgmap (packages : list GoPackage) : gmap string GoPackage :=
  foldl (fun m pkg => <[PkgPath pkg := pkg]> m) ∅ packages.

(** One pass of the loop over [filenames]. *)
Definition convertInput (i : nat) (filename : string) (ps : list Package)
    : outcome (list Package) :=
  profiles ← ParseProfiles env filename;
  packages ← wrapError "load packages: "
               (Load env (uniqPackageNames profiles ∅ []));
  c ← convertEntries ∅ (mkPkgmap packages) profiles;
  Done (foldl AddPackage ps (rangeOrder i c)).

Fixpoint convertInputs (i : nat) (filenames : list string)
    (ps : list Package) : outcome (list Package) :=
  match filenames with
  | [] => Done ps
  | filename :: rest =>
      ps ← convertInput i filename ps;
      convertInputs (S i) rest ps
  end.

Definition ConvertProfiles (filenames : list string)
    : outcome (list Byte.byte) :=
  ps ← convertInputs 0 filenames [];
  marshalJson env ps.

End Orchestrator.

(** An order is one the runtime can take when it lists exactly the
    values of the map. *)
Definition validOrder (order : nat -> gmap string Package -> list Package)
    : Prop :=
  forall i m, order i m ≡ₚ (map_to_list m).*2.

(** ** The source's reading of the loops of [VisitStmt] *)

(** [for _, stmt := range s.List { v.VisitStmt(stmt) }]. *)
Definition visitList (fset : File)
    : list Stmt -> list StmtExtent -> outcome (list Stmt * list StmtExtent) :=
  fix visitList (l : list Stmt) (stmts : list StmtExtent) :=
    match l with
    | [] => Done ([], stmts)
    | stmt :: rest =>
        '(stmt', stmts) ← VisitStmt fset stmt stmts;
        '(rest', stmts) ← visitList rest stmts;
        Done (stmt' :: rest', stmts)
    end.

(** The switch on [s.Else] (lines 341 to 353): what [s.Else] is right
    before the call [v.VisitStmt(s.Else)]. *)
Definition rewriteElse (els : Stmt) : outcome Stmt :=
  match els with
  | IfStmt if_ _ _ _ _ =>
      Done (BlockStmt {| Lbrace := if_ - backupToElse;
                         List := [els];
                         Rbrace := End els |})
  | BlockStmt b =>
      Done (BlockStmt {| Lbrace := Lbrace b - backupToElse;
                         List := List b;
                         Rbrace := Rbrace b |})
  | _ => Panicked "unexpected node type in if"
  end.

Definition isIfStmt (s : Stmt) : bool :=
  match s with IfStmt _ _ _ _ _ => true | _ => false end.

Definition isBlockStmt (s : Stmt) : bool :=
  match s with BlockStmt _ => true | _ => false end.

(** The else branch of an if statement. *)
Definition elseOf (s : Stmt) : option Stmt :=
  match s with
  | IfStmt _ _ _ _ els => els
  | _ => None
  end.

(** The byte offset of the first [else] of a source text. *)
Definition elseKeywordOffset (src : string) : option Z :=
  Z.of_nat <$> String.index 0 "else" src.

(** The else rule in the words of the specification: after the visit of
    an if statement read from [src], its else branch starts at the byte
    offset of the [else] keyword. *)
Definition spec_elseAtKeyword (fset : File) (src : string) (s : Stmt) : Prop :=
  forall s' stmts',
    VisitStmt fset s [] = Done (s', stmts') ->
    exists e,
      elseOf s' = Some e
      /\ Some (Offset (Position_of fset (Pos e))) = elseKeywordOffset src.

(** ** Predicates of the statements below *)

(** [p] is a position of the file. *)
Definition InFile (f : File) (p : Z) : Prop :=
  p <> NoPos /\ base f <= p <= base f + size f.

(** A token with text [text] at [pos] lies between [lo] and [hi]. *)
Definition tokenIn (lo hi pos : Z) (text : string) : Prop :=
  lo <= pos /\ pos + len text <= hi.

(** A node lies between [lo] and [hi]. *)
Definition nodeIn {A} `{Node A} (lo hi : Z) (x : A) : Prop :=
  lo <= Pos x /\ Pos x <= End x /\ End x <= hi.

(** The parser's nesting of positions, for the body of a function that
    spans [lo] to [hi]: the keywords, operators, labels and expressions
    of its statements lie inside the function. *)
Fixpoint within (lo hi : Z) (s : Stmt) : Prop :=
  let all := fix all (l : list Stmt) : Prop :=
    match l with
    | [] => True
    | x :: r => within lo hi x /\ all r
    end in
  match s with
  | BadStmt _ _ => True
  | DeclStmt d => nodeIn lo hi d
  | EmptyStmt _ _ => True
  | LabeledStmt l _ s0 => nodeIn lo hi l /\ within lo hi s0
  | ExprStmt x => nodeIn lo hi x
  | SendStmt c _ v => nodeIn lo hi c /\ nodeIn lo hi v
  | IncDecStmt x tokpos tok =>
      nodeIn lo hi x /\ tokenIn lo hi tokpos (Token_String tok)
  | AssignStmt _ tokpos tok _ => tokenIn lo hi tokpos (Token_String tok)
  | GoStmt go _ => tokenIn lo hi go "go"
  | DeferStmt defer _ => tokenIn lo hi defer "defer"
  | ReturnStmt ret _ => tokenIn lo hi ret "return"
  | BranchStmt tokpos tok label =>
      tokenIn lo hi tokpos (Token_String tok)
      /\ match label with Some l => nodeIn lo hi l | None => True end
  | BlockStmt b => all (List b)
  | IfStmt if_ init cond body els =>
      tokenIn lo hi if_ "if"
      /\ match init with Some i => within lo hi i | None => True end
      /\ match cond with Some c => nodeIn lo hi c | None => True end
      /\ all (List body)
      /\ match els with Some e => within lo hi e | None => True end
  | CaseClause _ _ body => all body
  | SwitchStmt sw init body =>
      tokenIn lo hi sw "switch"
      /\ match init with Some i => within lo hi i | None => True end
      /\ all (List body)
  | TypeSwitchStmt sw init assign body =>
      tokenIn lo hi sw "switch"
      /\ match init with Some i => within lo hi i | None => True end
      /\ match assign with Some a => within lo hi a | None => True end
      /\ all (List body)
  | CommClause _ _ body => all body
  | SelectStmt sel body => tokenIn lo hi sel "select" /\ all (List body)
  | ForStmt for_ init cond post body =>
      tokenIn lo hi for_ "for"
      /\ match init with Some i => within lo hi i | None => True end
      /\ match cond with Some c => nodeIn lo hi c | None => True end
      /\ match post with Some p => within lo hi p | None => True end
      /\ all (List body)
  | RangeStmt for_ x body =>
      tokenIn lo hi for_ "for" /\ nodeIn lo hi x /\ all (List body)
  end.

(** All statements of a list are nested between [lo] and [hi]. *)
Definition allWithin (lo hi : Z) : list Stmt -> Prop :=
  fix all (l : list Stmt) : Prop :=
    match l with
    | [] => True
    | x :: r => within lo hi x /\ all r
    end.

Definition nodeBody (node : AstNode) : option BlockStmtT :=
  match node with
  | NFuncLit n => Some (LitBody n)
  | NFuncDecl n => DeclBody n
  | NOther _ _ => None
  end.

(** A function node as the parser builds it: it starts and ends in the
    file and its body is nested in it. *)
Definition wellNested (fset : File) (node : AstNode) : Prop :=
  match nodeBody node with
  | Some body =>
      InFile fset (Pos node) /\ InFile fset (End node)
      /\ within (Pos node) (End node) (BlockStmt body)
  | None => True
  end.

(** A parsed file as the parser delivers it: positions start at 1 and
    every function node is well nested. *)
Definition wellFormed (pf : ParsedFile) : Prop :=
  0 < base (fset_of pf) /\ Forall (wellNested (fset_of pf)) (nodes_of pf).

(** An extent lies between the positions [lo] and [hi] of the file. *)
Definition extentIn (fset : File) (lo hi : Z) (se : StmtExtent) : Prop :=
  Offset (Position_of fset lo) <= startOffset se
  /\ endOffset se <= Offset (Position_of fset hi).

(** The statement extents of [fe] lie inside [fe]. *)
Definition contained (fe : FuncExtent) : Prop :=
  Forall (fun se => startOffset (ext fe) <= startOffset se
                    /\ endOffset se <= endOffset (ext fe)) (stmts fe).


(** Blocks in ascending order of their start position. *)
Definition startsBefore (b1 b2 : ProfileBlock) : Prop :=
  StartLine b1 < StartLine b2
  \/ (StartLine b1 = StartLine b2 /\ StartCol b1 <= StartCol b2).

(** A block and a statement overlap: the block is neither past the
    statement nor before it. *)
Definition overlaps (s : StmtExtent) (b : ProfileBlock) : bool :=
  negb (past b s) && negb (before b s).

(** The sum of the hit counts of the blocks that overlap [s]. *)
Definition overlapCount (s : StmtExtent) (blocks : list ProfileBlock) : Z :=
  foldr Z.add 0 (Count <$> filter (fun b => overlaps s b = true) blocks).

(** The overlap test in the words of the specification, on the line and
    column numbers themselves: a block is past a statement when it
    starts on a later line than the statement ends, or on that line at
    or after its end column; it is before the statement when it ends on
    an earlier line than the statement starts, or on that line at or
    before its start column. *)
Definition spec_past (b : ProfileBlock) (s : StmtExtent) : Prop :=
  StartLine b > endLine s
  \/ (StartLine b = endLine s /\ StartCol b >= endCol s).

Definition spec_before (b : ProfileBlock) (s : StmtExtent) : Prop :=
  EndLine b < startLine s
  \/ (EndLine b = startLine s /\ EndCol b <= startCol s).

Definition spec_overlaps (s : StmtExtent) (b : ProfileBlock) : Prop :=
  ~ spec_past b s /\ ~ spec_before b s.

#[global] Instance spec_overlaps_dec s b : Decision (spec_overlaps s b).
Proof. unfold spec_overlaps, spec_past, spec_before. apply _. Defined.


(** ** Predicates of the proofs *)

(** [VisitStmt] has no error result: it returns, or it panics in the
    switch on the else branch. *)
Definition returnsOrPanics {A} (c : outcome A) : Prop :=
  match c with
  | Done _ => True
  | Failed _ => False
  | Panicked msg => msg = "unexpected node type in if"
  end.

(** The if statement [h], with [e] as its else branch. *)
Definition withElse (h e : Stmt) : Stmt :=
  match h with
  | IfStmt if_ init cond body _ => IfStmt if_ init cond body (Some e)
  | _ => h
  end.

(** A visit keeps the extents inside the function: if it returns,
    all extents of the list it returns lie between [lo] and [hi]. *)
Definition staysIn {A} (fset : File) (lo hi : Z)
    (c : outcome (A * list StmtExtent)) : Prop :=
  forall a stmts', c = Done (a, stmts') -> Forall (extentIn fset lo hi) stmts'.

(** The same for the visit of a statement nested between [lo] and [hi]. *)
Definition keepsIn (fset : File) (lo hi : Z) (s : Stmt) : Prop :=
  forall stmts,
    within lo hi s -> Forall (extentIn fset lo hi) stmts ->
    staysIn fset lo hi (VisitStmt fset s stmts).

(** The key under which the second loop looks up a profile entry. *)
Definition entryPkgPath (profile : Profile) : string :=
  TrimSuffix (fst (path_Split (FileName profile))) "/".

Definition entryFileName (profile : Profile) : string :=
  snd (path_Split (FileName profile)).

(** A profile entry is unmatched when its package is resolved and no
    compiled file of the package has its base name. *)
Definition unmatched (pkgmap : gmap string GoPackage) (profile : Profile)
    : Prop :=
  exists pkg,
    pkgmap !! entryPkgPath profile = Some pkg
    /\ Forall (fun abspath => filepath_Base abspath <> entryFileName profile)
         (CompiledGoFiles pkg).

(** The packages of the converter are stored under their names. *)
Definition namesAreKeys (c : gmap string Package) : Prop :=
  forall k pkg, c !! k = Some pkg -> PName pkg = k.

(** The accumulator does not depend on the order in which two packages
    of different names are added. *)
Definition orderInsensitive
    (AddPackage : list Package -> Package -> list Package) : Prop :=
  forall ps p q,
    PName p <> PName q ->
    AddPackage (AddPackage ps p) q = AddPackage (AddPackage ps q) p.


(** ** Further predicates *)

(** Order of positions by line, then column. *)
Definition posLt (l1 c1 l2 c2 : Z) : bool :=
  (l1 <? l2) || ((l1 =? l2) && (c1 <? c2)).

(** The blocks that come before the first block past the statement. *)
Fixpoint scanned (s : StmtExtent) (blocks : list ProfileBlock)
    : list ProfileBlock :=
  match blocks with
  | [] => []
  | b :: rest => if past b s then [] else b :: scanned s rest
  end.

(** The package directory of a profile entry, as the first loop of
    [ConvertProfiles] computes it. *)
Definition entryDir (env : Collaborators) (profile : Profile) : string :=
  path_Dir env (FileName profile).

(** Every package of the converter is stored under its name, that name
    is the path of a resolved package, and every function in it comes
    from a compiled file of a resolved package of that path. *)
Definition fromResolved (pkgmap : gmap string GoPackage)
    (c : gmap string Package) : Prop :=
  forall k pkg,
    c !! k = Some pkg ->
    PName pkg = k
    /\ (exists key gp, pkgmap !! key = Some gp /\ PkgPath gp = k)
    /\ forall f, f ∈ Functions pkg ->
         exists key gp,
           pkgmap !! key = Some gp /\ PkgPath gp = k
           /\ FFile f ∈ CompiledGoFiles gp.

(** The package that [convertProfile] works on: the package of the
    converter under [pkgPath], or a new one of that name. *)
Definition packageOf (c : gmap string Package) (pkgPath : string) : Package :=
  default {| PName := pkgPath; Functions := [] |} (c !! pkgPath).

(** The functions of the files [files], file after file, given the
    function extents found in each. *)
Definition functionsOf (profile : Profile) (files : list string)
    (found : list (list FuncExtent)) : list Function :=
  concat (zip_with (fun abspath extents =>
                      convertFunction abspath (Blocks profile) <$> extents)
            files found).

(** The converter [c'] has all packages of [c], each with the functions
    it had as the first of its functions. *)
Definition extends (c c' : gmap string Package) : Prop :=
  forall k pkg,
    c !! k = Some pkg ->
    exists pkg',
      c' !! k = Some pkg' /\ PName pkg' = PName pkg
      /\ (Functions pkg) `prefix_of` (Functions pkg').

(** The result of a visit that started from the empty list, moved
    behind the extents [stmts] recorded before. *)
Definition rebase {A} (stmts : list StmtExtent)
    (c : outcome (A * list StmtExtent)) : outcome (A * list StmtExtent) :=
  '(a, new) ← c; Done (a, stmts ++ new).

(** A visit of [s] only adds to the list: from any list it gives what
    it gives from the empty list, behind the extents already there. *)
Definition appendsTo (fset : File) (s : Stmt) : Prop :=
  forall stmts, VisitStmt fset s stmts = rebase stmts (VisitStmt fset s []).

(** The else branches of the tree are if statements or blocks, as the
    parser builds them. *)
Fixpoint elseShaped (s : Stmt) : Prop :=
  let all := fix all (l : list Stmt) : Prop :=
    match l with
    | [] => True
    | x :: r => elseShaped x /\ all r
    end in
  match s with
  | LabeledStmt _ _ s0 => elseShaped s0
  | BlockStmt b => all (List b)
  | IfStmt _ init _ body els =>
      match init with Some i => elseShaped i | None => True end
      /\ all (List body)
      /\ match els with
         | Some e => (isIfStmt e || isBlockStmt e = true) /\ elseShaped e
         | None => True
         end
  | CaseClause _ _ body => all body
  | SwitchStmt _ init body =>
      match init with Some i => elseShaped i | None => True end
      /\ all (List body)
  | TypeSwitchStmt _ init assign body =>
      match init with
      | Some i => elseShaped i
      | None => match assign with Some a => elseShaped a | None => True end
      end
      /\ all (List body)
  | CommClause _ _ body => all body
  | SelectStmt _ body => all (List body)
  | ForStmt _ init cond post body =>
      match init with
      | Some i => elseShaped i
      | None =>
          match cond with
          | Some _ => True
          | None => match post with Some p => elseShaped p | None => True end
          end
      end
      /\ all (List body)
  | RangeStmt _ _ body => all (List body)
  | _ => True
  end.

Definition allElseShaped : list Stmt -> Prop :=
  fix all (l : list Stmt) : Prop :=
    match l with
    | [] => True
    | x :: r => elseShaped x /\ all r
    end.

(** The two halves of "the visit returns exactly on the trees whose
    else branches are if statements or blocks", for the induction. *)
Definition returnsOn (fset : File) (s : Stmt) : Prop :=
  elseShaped s -> forall stmts, exists r, VisitStmt fset s stmts = Done r.

Definition shapedOn (fset : File) (s : Stmt) : Prop :=
  forall stmts r, VisitStmt fset s stmts = Done r -> elseShaped s.

(** A second visit of the tree that a visit left behind records what
    the first recorded. *)
Definition revisits (fset : File) (s : Stmt) : Prop :=
  forall stmts s' stmts',
    VisitStmt fset s stmts = Done (s', stmts') ->
    exists s'', VisitStmt fset s' stmts = Done (s'', stmts').

(** A node of the walk that has a function body. *)
Definition hasBody (node : AstNode) : Prop := is_Some (nodeBody node).

#[global] Instance hasBody_dec (node : AstNode) : Decision (hasBody node).
Proof. unfold hasBody. apply _. Defined.

(** The statements of a function record lie inside the function. *)
Definition statementsInside (f : Function) : Prop :=
  Forall (fun st => FStart f <= Start st /\ End_ st <= FEnd f) (Statements f).

Definition outputInside (c : gmap string Package) : Prop :=
  forall k pkg f, c !! k = Some pkg -> f ∈ Functions pkg -> statementsInside f.

(** Every file that parses is delivered well formed. *)
Definition parsesWell (env : Collaborators) : Prop :=
  forall name pf, ParseFile env name = Done pf -> wellFormed pf.

(** A file name without slash. *)
Fixpoint noSlash (s : string) : Prop :=
  match s with
  | EmptyString => True
  | String c r => isSlash c = false /\ noSlash r
  end.

(** ** Sample inputs

    A small source file of four lines, and nodes placed in it. *)

Definition sampleFile : File :=
  {| base := 1; size := 100; lines := [0; 13; 40; 60] |}.


(** [n++] at positions 30 to 33. *)
Definition sampleIncDec : Stmt :=
  IncDecStmt (EIdent {| NamePos := 30; Name := "n" |}) 31 INC.

(** [x := y] with the operator at position 63. *)
Definition sampleAssign : Stmt :=
  AssignStmt [OtherExpr 61 62] 63 DEFINE [OtherExpr 66 67].

(** [if a { return } else if b { } else { x := y }]. *)
Definition sampleElseBlock : Stmt :=
  BlockStmt {| Lbrace := 59; List := [sampleAssign]; Rbrace := 70 |}.

Definition sampleElseIf : Stmt :=
  IfStmt 45 None (Some (OtherExpr 48 50))
         {| Lbrace := 51; List := []; Rbrace := 52 |}
         (Some sampleElseBlock).

Definition sampleIf : Stmt :=
  IfStmt 20 None (Some (OtherExpr 23 28))
         {| Lbrace := 29; List := [ReturnStmt 31 []]; Rbrace := 38 |}
         (Some sampleElseIf).


(** [func (w *Widget) Draw() { n++ }] and a function literal. *)
Definition sampleMethod : FuncDecl :=
  {| Recv := Some [{| Type_ := StarExpr 8 (EIdent {| NamePos := 9; Name := "Widget" |}) |}];
     DeclName := {| NamePos := 17; Name := "Draw" |};
     DeclFunc := 1;
     DeclTypeEnd := 23;
     DeclBody := Some {| Lbrace := 24; List := [sampleIncDec]; Rbrace := 36 |} |}.

Definition sampleLit : FuncLit :=
  {| LitFunc := 45;
     LitBody := {| Lbrace := 52; List := [sampleAssign]; Rbrace := 70 |} |}.

(** The file [widget.go] of package [example.com/m], as parsed. *)
Definition sampleParsed : ParsedFile :=
  {| fset_of := sampleFile;
     nodes_of := [NOther 1 10; NFuncDecl sampleMethod; NFuncLit sampleLit] |}.

(** A profile of that file with two blocks. *)
Definition sampleBlocks : list ProfileBlock :=
  [ {| StartLine := 2; StartCol := 10; EndLine := 2; EndCol := 25;
       NumStmt := 1; Count := 3 |};
    {| StartLine := 4; StartCol := 1; EndLine := 4; EndCol := 12;
       NumStmt := 1; Count := 5 |} ].

Definition sampleProfile : Profile :=
  {| FileName := "example.com/m/widget.go"; Mode := "count";
     Blocks := sampleBlocks |}.

(** A profile entry for a file that package [example.com/m] does not
    compile, and one that names its file without a directory. *)
Definition strayProfile : Profile :=
  {| FileName := "example.com/m/gadget.go"; Mode := "count"; Blocks := [] |}.

Definition bareProfile : Profile :=
  {| FileName := "widget.go"; Mode := "count"; Blocks := sampleBlocks |}.

(** Modelled from the spec: [gocovutil.Packages.AddPackage], which is
    not in [convert.go].  The spec has packages accumulate by logical
    name, with the functions of a package seen again appended to those
    already there; where a package with a new name goes is not said, and
    it is kept in the order of the names here. *)
Fixpoint AddPackage_byName (ps : list Package) (p : Package) : list Package :=
  match ps with
  | [] => [p]
  | q :: rest =>
      match String.compare (PName p) (PName q) with
      | Eq => {| PName := PName q; Functions := Functions q ++ Functions p |}
              :: rest
      | Lt => p :: q :: rest
      | Gt => q :: AddPackage_byName rest p
      end
  end.

(** A JSON encoder for the result, without escapes in strings; a nil
    slice is written [null]. *)
Definition jsonQuote : string := String "034"%char EmptyString.

Definition jsonString (s : string) : string := jsonQuote +:+ s +:+ jsonQuote.

Definition jsonField (key value : string) : string :=
  jsonString key +:+ ":" +:+ value.

Fixpoint jsonItems {A} (f : A -> string) (l : list A) : string :=
  match l with
  | [] => ""
  | [x] => f x
  | x :: r => f x +:+ "," +:+ jsonItems f r
  end.

Definition jsonList {A} (f : A -> string) (l : list A) : string :=
  match l with
  | [] => "null"
  | _ => "[" +:+ jsonItems f l +:+ "]"
  end.

Definition jsonStatement (s : Statement) : string :=
  "{" +:+ jsonField "Start" (pretty (Start s)) +:+ ","
      +:+ jsonField "End" (pretty (End_ s)) +:+ ","
      +:+ jsonField "Reached" (pretty (Reached s)) +:+ "}".

Definition jsonFunction (f : Function) : string :=
  "{" +:+ jsonField "Name" (jsonString (FName f)) +:+ ","
      +:+ jsonField "File" (jsonString (FFile f)) +:+ ","
      +:+ jsonField "Start" (pretty (FStart f)) +:+ ","
      +:+ jsonField "End" (pretty (FEnd f)) +:+ ","
      +:+ jsonField "Statements" (jsonList jsonStatement (Statements f)) +:+ "}".

Definition jsonPackage (p : Package) : string :=
  "{" +:+ jsonField "Name" (jsonString (PName p)) +:+ ","
      +:+ jsonField "Functions" (jsonList jsonFunction (Functions p)) +:+ "}".

Definition sampleEncoder (ps : list Package) : outcome (list Byte.byte) :=
  Done (String.list_byte_of_string
          ("{" +:+ jsonField "Packages" (jsonList jsonPackage ps) +:+ "}"
               +:+ String "010"%char EmptyString)).

(** [path.Dir] on paths that are already clean. *)
Definition sampleDir (p : string) : string :=
  let dir := TrimSuffix (fst (path_Split p)) "/" in
  if bool_decide (dir = EmptyString) then "." else dir.

(** A module [example.com/m] in the working directory, with the single
    file [widget.go], and three profile files. *)
Definition sampleEnv : Collaborators :=
  {| ParseProfiles := fun name =>
       if bool_decide (name = "cover.out") then Done [sampleProfile]
       else if bool_decide (name = "stray.out") then Done [strayProfile]
       else if bool_decide (name = "bare.out") then Done [bareProfile]
       else Failed ("open " +:+ name +:+ ": no such file or directory");
     Load := fun names =>
       Done ((fun n =>
                if bool_decide (n = ".") || bool_decide (n = "example.com/m")
                then {| PkgPath := "example.com/m";
                        CompiledGoFiles := ["/src/m/widget.go"] |}
                else {| PkgPath := n; CompiledGoFiles := [] |}) <$> names);
     ParseFile := fun name =>
       if bool_decide (name = "/src/m/widget.go") then Done sampleParsed
       else Failed ("open " +:+ name +:+ ": no such file or directory");
     path_Dir := sampleDir;
     marshalJson := sampleEncoder |}.

(** Two orders in which the runtime may range over a map. *)
Definition ascending (i : nat) (m : gmap string Package) : list Package :=
  (map_to_list m).*2.

Definition descending (i : nat) (m : gmap string Package) : list Package :=
  reverse (map_to_list m).*2.

(** The same module when the package resolver fails, and when the
    source file does not parse. *)
Definition unresolvedEnv : Collaborators :=
  {| ParseProfiles := ParseProfiles sampleEnv;
     Load := fun _ => Failed "go list: exit status 1";
     ParseFile := ParseFile sampleEnv;
     path_Dir := sampleDir;
     marshalJson := sampleEncoder |}.

Definition unparsedEnv : Collaborators :=
  {| ParseProfiles := ParseProfiles sampleEnv;
     Load := Load sampleEnv;
     ParseFile := fun name => Failed (name +:+ ":1:1: expected 'package'");
     path_Dir := sampleDir;
     marshalJson := sampleEncoder |}.

(** Three blocks out of order: the first is past the statement at
    line 2, the second overlaps it. *)
Definition unsortedBlocks : list ProfileBlock :=
  [ {| StartLine := 4; StartCol := 1; EndLine := 4; EndCol := 12;
       NumStmt := 1; Count := 5 |};
    {| StartLine := 2; StartCol := 10; EndLine := 2; EndCol := 25;
       NumStmt := 1; Count := 3 |} ].

(** The result of a visit that returned. *)
Definition visited (c : outcome (Stmt * list StmtExtent))
    : Stmt * list StmtExtent :=
  match c with
  | Done r => r
  | _ => (BadStmt NoPos NoPos, [])
  end.

(** [func () Draw() { }]: a method declaration without receiver, which
    the parser accepts. *)
Definition noReceiverDecl : FuncDecl :=
  {| Recv := Some [];
     DeclName := {| NamePos := 49; Name := "Draw" |};
     DeclFunc := 41;
     DeclTypeEnd := 55;
     DeclBody := Some {| Lbrace := 56; List := []; Rbrace := 58 |} |}.

Definition oddParsed : ParsedFile :=
  {| fset_of := sampleFile;
     nodes_of := [NFuncDecl sampleMethod; NFuncDecl noReceiverDecl] |}.

Definition oddEnv : Collaborators :=
  {| ParseProfiles := ParseProfiles sampleEnv;
     Load := Load sampleEnv;
     ParseFile := fun _ => Done oddParsed;
     path_Dir := sampleDir;
     marshalJson := sampleEncoder |}.


(** The one-line text [if a {}else{b()}], which the parser accepts, and
    its tree: [if] at position 1, [a] at 4, the braces of the body at 6
    and 7, the keyword [else] at position 8 (byte offset 7), the braces
    of the else branch at 12 and 16 and the call [b()] at 13. *)
Definition tightSource : string := "if a {}else{b()}".

Definition tightFile : File := {| base := 1; size := 16; lines := [0] |}.

Definition tightIf : Stmt :=
  IfStmt 1 None (Some (OtherExpr 4 5))
         {| Lbrace := 6; List := []; Rbrace := 7 |}
         (Some (BlockStmt {| Lbrace := 12;
                             List := [ExprStmt (OtherExpr 13 16)];
                             Rbrace := 16 |})).

(** The functions of [widget.go] and the converter after one and after
    two conversions of [sampleProfile]. *)
Definition sampleExtents : list FuncExtent :=
  [ {| name := "Widget.Draw"; ext := mkExtent sampleFile 1 37;
       stmts := [mkExtent sampleFile 30 31] |};
    {| name := "@3:5"; ext := mkExtent sampleFile 45 71;
       stmts := [mkExtent sampleFile 63 64] |} ].

Definition sampleFunctions : list Function :=
  convertFunction "/src/m/widget.go" sampleBlocks <$> sampleExtents.

Definition onceConverted : gmap string Package :=
  {[ "example.com/m" :=
       {| PName := "example.com/m"; Functions := sampleFunctions |} ]}.

Definition twiceConverted : gmap string Package :=
  {[ "example.com/m" :=
       {| PName := "example.com/m";
          Functions := sampleFunctions ++ sampleFunctions |} ]}.

(** The module with a second file of the name [widget.go], in another
    directory, and the converter after [sampleProfile] is converted for
    both files from [onceConverted]. *)
Definition twinEnv : Collaborators :=
  {| ParseProfiles := ParseProfiles sampleEnv;
     Load := Load sampleEnv;
     ParseFile := fun name =>
       if bool_decide (name = "/gen/m/widget.go") then Done sampleParsed
       else ParseFile sampleEnv name;
     path_Dir := sampleDir;
     marshalJson := sampleEncoder |}.

Definition twinConverted : gmap string Package :=
  {[ "example.com/m" :=
       {| PName := "example.com/m";
          Functions :=
            sampleFunctions ++ sampleFunctions
            ++ (convertFunction "/gen/m/widget.go" sampleBlocks
                  <$> sampleExtents) |} ]}.

(** A second package [example.com/lib] with a file [widget.go] of its
    own, and a profile file [pair.out] that covers both packages. *)
Definition libProfile : Profile :=
  {| FileName := "example.com/lib/widget.go"; Mode := "count";
     Blocks := sampleBlocks |}.

Definition pairEnv : Collaborators :=
  {| ParseProfiles := fun name =>
       if bool_decide (name = "pair.out") then Done [sampleProfile; libProfile]
       else ParseProfiles sampleEnv name;
     Load := fun names =>
       Done ((fun n =>
                if bool_decide (n = "example.com/lib")
                then {| PkgPath := "example.com/lib";
                        CompiledGoFiles := ["/src/lib/widget.go"] |}
                else if bool_decide (n = ".") || bool_decide (n = "example.com/m")
                then {| PkgPath := "example.com/m";
                        CompiledGoFiles := ["/src/m/widget.go"] |}
                else {| PkgPath := n; CompiledGoFiles := [] |}) <$> names);
     ParseFile := fun name =>
       if bool_decide (name = "/src/lib/widget.go") then Done sampleParsed
       else ParseFile sampleEnv name;
     path_Dir := sampleDir;
     marshalJson := sampleEncoder |}.

Definition pairPackages : list GoPackage :=
  [ {| PkgPath := "example.com/m"; CompiledGoFiles := ["/src/m/widget.go"] |};
    {| PkgPath := "example.com/lib";
       CompiledGoFiles := ["/src/lib/widget.go"] |} ].

Definition pairConverted : gmap string Package :=
  <["example.com/lib" :=
      {| PName := "example.com/lib";
         Functions := convertFunction "/src/lib/widget.go" sampleBlocks
                        <$> sampleExtents |}]> onceConverted.

(** Modelled from the spec: [gocovutil.Packages.AddPackage] in another
    reading of the same words.  The functions of a package seen again
    are appended to those already there, and a package with a new name
    is put last. *)
Fixpoint AddPackage_append (ps : list Package) (p : Package) : list Package :=
  match ps with
  | [] => [p]
  | q :: rest =>
      if decide (PName q = PName p)
      then {| PName := PName q; Functions := Functions q ++ Functions p |}
           :: rest
      else q :: AddPackage_append rest p
  end.

(** * Properties *)

(** ** Positions and tokens *)

Lemma Position_of_Offset (f : File) (p : Z) :
  InFile f p -> Offset (Position_of f p) = p - base f.
Proof.
  intros [Hp Hr]. unfold Position_of, fileOf.
  destruct (Z.eqb_spec p NoPos) as [->|_]; [done|].
  destruct (Z.leb_spec (base f) p); [|lia].
  destruct (Z.leb_spec p (base f + size f)); [|lia].
  simpl. by destruct (unpack f (p - base f)).
Qed.

Lemma InFile_between (f : File) (lo hi p : Z) :
  InFile f lo -> InFile f hi -> 0 < base f -> lo <= p <= hi -> InFile f p.
Proof. unfold InFile, NoPos. lia. Qed.

Lemma len_Token_String (tok : Token) : 1 <= len (Token_String tok).
Proof. destruct tok; vm_compute; discriminate. Qed.

Lemma len_nonneg (s : string) : 0 <= len s.
Proof. unfold len. lia. Qed.

(** ** Equations of [VisitStmt] *)

Lemma VisitStmt_BlockStmt fset (b : BlockStmtT) stmts :
  VisitStmt fset (BlockStmt b) stmts =
  '(l', stmts) ← visitList fset (List b) stmts;
  Done (BlockStmt {| Lbrace := Lbrace b; List := l'; Rbrace := Rbrace b |}, stmts).
Proof.
  destruct b as [lb l rb]. simpl. fold (visitList fset).
  by destruct (visitList fset l stmts) as [[??]| |].
Qed.

Lemma bind_Done {A B} (c : outcome A) (k : A -> outcome B) (b : B) :
  c ≫= k = Done b -> exists a, c = Done a /\ k a = Done b.
Proof. destruct c; simpl; [eauto | done | done]. Qed.

Lemma returnsOrPanics_bind {A B} (c : outcome A) (k : A -> outcome B) :
  returnsOrPanics c -> (forall a, returnsOrPanics (k a)) ->
  returnsOrPanics (c ≫= k).
Proof. destruct c; simpl; auto. Qed.

Lemma visitList_returnsOrPanics fset (l : list Stmt) :
  list_all Stmt (fun s => forall stmts, returnsOrPanics (VisitStmt fset s stmts)) l ->
  forall stmts, returnsOrPanics (visitList fset l stmts).
Proof.
  induction 1 as [|x Hx r _ IH]; intros stmts; simpl; [done|].
  apply returnsOrPanics_bind; [apply Hx|]. intros [x' stmts1].
  apply returnsOrPanics_bind; [apply IH|]. by intros [r' stmts2].
Qed.

Lemma returnsOrPanics_bind_inv {A B} (c : outcome A) (k : A -> outcome B) :
  returnsOrPanics (c ≫= k) -> returnsOrPanics c.
Proof. by destruct c. Qed.

(** The induction hypotheses on the children of a statement. *)
Lemma option_all_returns fset (s : Stmt) stmts :
  option_all Stmt
    (fun s => forall stmts, returnsOrPanics (VisitStmt fset s stmts)) (Some s) ->
  returnsOrPanics (VisitStmt fset s stmts).
Proof. inversion 1; auto. Qed.

Lemma BlockOf_all_returns fset (b : BlockStmtT) stmts :
  BlockOf_all Stmt
    (fun s => forall stmts, returnsOrPanics (VisitStmt fset s stmts)) b ->
  returnsOrPanics (visitList fset (List b) stmts).
Proof. destruct 1. by apply visitList_returnsOrPanics. Qed.

Lemma option_all_block_returns fset (b : BlockStmtT) stmts :
  option_all Stmt
    (fun s => forall stmts, returnsOrPanics (VisitStmt fset s stmts))
    (Some (BlockStmt b)) ->
  returnsOrPanics (visitList fset (List b) stmts).
Proof.
  intros H. apply option_all_returns with (stmts := stmts) in H.
  rewrite VisitStmt_BlockStmt in H. by apply returnsOrPanics_bind_inv in H.
Qed.

Ltac returns_step :=
  lazymatch goal with
  | |- True => exact I
  | |- returnsOrPanics (Done _) => exact I
  | |- returnsOrPanics (Panicked _) => reflexivity
  | |- returnsOrPanics (_ ≫= _) => apply returnsOrPanics_bind; [|intros]
  | |- returnsOrPanics (visitList _ (List ?b) _) =>
      first [ apply BlockOf_all_returns; assumption
            | apply option_all_block_returns; assumption ]
  | |- returnsOrPanics (visitList _ _ _) =>
      apply visitList_returnsOrPanics; assumption
  | |- returnsOrPanics (VisitStmt _ _ _) =>
      first [ solve [auto] | apply option_all_returns; assumption ]
  | |- returnsOrPanics (match ?x with _ => _ end) => destruct x
  end.

Lemma VisitStmt_returnsOrPanics fset (s : Stmt) :
  forall stmts, returnsOrPanics (VisitStmt fset s stmts).
Proof.
  induction s; intros stmts; simpl; fold (visitList fset);
    repeat returns_step.
Qed.


(** ** The span rules of single statements *)



(** C6: an assignment records one extent, which starts at the operator
    and is one byte long, whatever the operator is. *)
Theorem assignment_extent_one_byte fset lhs tokpos tok rhs stmts :
  InFile fset tokpos -> InFile fset (tokpos + 1) ->
  exists se,
    VisitStmt fset (AssignStmt lhs tokpos tok rhs) stmts =
      Done (AssignStmt lhs tokpos tok rhs, stmts ++ [se])
    /\ startOffset se = Offset (Position_of fset tokpos)
    /\ endOffset se = startOffset se + 1.
Proof.
  intros Hp Hq. eexists. split; [reflexivity|]. simpl.
  change (tokpos + len "=") with (tokpos + 1).
  rewrite !Position_of_Offset by done. lia.
Qed.

Lemma assignment_extent_one_byte_witness :
  exists se,
    VisitStmt sampleFile sampleAssign [] = Done (sampleAssign, [] ++ [se])
    /\ startOffset se = Offset (Position_of sampleFile 63)
    /\ endOffset se = startOffset se + 1.
Proof.
  apply (assignment_extent_one_byte sampleFile [OtherExpr 61 62] 63 DEFINE
           [OtherExpr 66 67] []); vm_compute; intuition discriminate.
Defined.

(** ** The else branch *)




Lemma visitList_singleton fset (x : Stmt) stmts :
  visitList fset [x] stmts =
  '(x', stmts) ← VisitStmt fset x stmts; Done ([x'], stmts).
Proof.
  unfold visitList. by destruct (VisitStmt fset x stmts) as [[??]| |].
Qed.

(** The else part of [VisitStmt] as the source writes it: the head and
    the body are visited, [s.Else] is rewritten, and the visitor is
    called on the rewritten branch. *)
Lemma VisitStmt_else fset if_ init cond body els stmts :
  VisitStmt fset (IfStmt if_ init cond body (Some els)) stmts =
  '(h, stmts) ← VisitStmt fset (IfStmt if_ init cond body None) stmts;
  els1 ← rewriteElse els;
  '(els2, stmts) ← VisitStmt fset els1 stmts;
  Done (withElse h els2, stmts).
Proof.
  simpl. fold (visitList fset).
  destruct (match init with
            | Some i => _
            | None => _
            end) as [[init' stmts1]| |]; simpl; try done.
  destruct (visitList fset (List body) stmts1) as [[body' stmts2]| |];
    simpl; try done.
  destruct els; try reflexivity.
  - (* a plain block *)
    unfold rewriteElse. cbn [mbind outcome_bind].
    rewrite VisitStmt_BlockStmt. cbn [Lbrace List Rbrace].
    by destruct (visitList fset (List b) stmts2) as [[??]| |].
  - (* a nested if statement *)
    unfold rewriteElse. cbn [mbind outcome_bind].
    rewrite VisitStmt_BlockStmt. cbn [Lbrace List Rbrace].
    rewrite visitList_singleton.
    match goal with
    | |- context [VisitStmt fset ?s stmts2] =>
        by destruct (VisitStmt fset s stmts2) as [[??]| |]
    end.
Qed.

Lemma visitList_Done_Lbrace fset (els1 : Stmt) stmts r stmts' lb l rb :
  els1 = BlockStmt {| Lbrace := lb; List := l; Rbrace := rb |} ->
  VisitStmt fset els1 stmts = Done (r, stmts') ->
  exists l', r = BlockStmt {| Lbrace := lb; List := l'; Rbrace := rb |}.
Proof.
  intros -> H. rewrite VisitStmt_BlockStmt in H. cbn [Lbrace List Rbrace] in H.
  destruct (visitList fset l stmts) as [[l' ?]| |]; simplify_eq/=. eauto.
Qed.

(** C5 as stated fails.  In [if a {}else{b()}] the keyword [else] is at
    byte offset 7, and after the visit the else branch starts at byte
    offset 6, the closing brace of the body: the start is the keyword
    only where one byte separates it from the branch.  And the block
    made for an else-if branch does not cover just the nested if
    statement: it ends one position after it. *)
Lemma else_start_not_at_keyword :
  (elseKeywordOffset tightSource = Some 7
   /\ String.substring 0 2 tightSource = "if"
   /\ String.substring 6 1 tightSource = "}"
   /\ String.substring 11 1 tightSource = "{"
   /\ exists blk stmts',
        VisitStmt tightFile tightIf [] =
          Done (IfStmt 1 None (Some (OtherExpr 4 5))
                       {| Lbrace := 6; List := []; Rbrace := 7 |}
                       (Some (BlockStmt blk)), stmts')
        /\ Offset (Position_of tightFile (Pos (BlockStmt blk))) = 6)
  /\ ~ spec_elseAtKeyword tightFile tightSource tightIf
  /\ (exists blk,
        elseOf (fst (visited (VisitStmt sampleFile sampleIf []))) =
          Some (BlockStmt blk)
        /\ (exists nested, List blk = [nested] /\ isIfStmt nested = true
                            /\ Pos nested = Pos sampleElseIf
                            /\ End nested = 71)
        /\ End (BlockStmt blk) = 72).
Proof.
  split; [|split].
  - repeat split; try reflexivity. eexists _, _. split; reflexivity.
  - intros H.
    destruct (H _ _ eq_refl) as (e & He & Hoff).
    injection He as <-. vm_compute in Hoff. discriminate Hoff.
  - eexists. split; [reflexivity|]. split; [|reflexivity].
    eexists. repeat split; reflexivity.
Qed.

(** C5, amended: when [VisitStmt] returns on an if statement with an
    else branch, the branch has been replaced by a block that starts
    [len "else "] before the first token of the original branch, which
    is the position of the keyword [else] where the branch starts
    [len "else "] after it.  For a nested if statement the block is
    new, holds just that statement and has the end of that statement as
    the position of its closing brace; for a plain block it is the
    block itself with its start moved.  The visitor is then called on
    that block. *)
Theorem else_branch_repositioning fset if_ init cond body els stmts s' stmts' :
  VisitStmt fset (IfStmt if_ init cond body (Some els)) stmts = Done (s', stmts') ->
  exists init' body' stmts1 els1 blk,
    VisitStmt fset (IfStmt if_ init cond body None) stmts =
      Done (IfStmt if_ init' cond body' None, stmts1)
    /\ rewriteElse els = Done els1
    /\ Pos els1 = Pos els - len "else "
    /\ (isIfStmt els = true ->
        els1 = BlockStmt {| Lbrace := Pos els - len "else ";
                            List := [els];
                            Rbrace := End els |})
    /\ (forall b, els = BlockStmt b ->
        els1 = BlockStmt {| Lbrace := Lbrace b - len "else ";
                            List := List b;
                            Rbrace := Rbrace b |})
    /\ VisitStmt fset els1 stmts1 = Done (BlockStmt blk, stmts')
    /\ Pos (BlockStmt blk) = Pos els - len "else "
    /\ s' = IfStmt if_ init' cond body' (Some (BlockStmt blk))
    /\ (forall elsePos, Pos els = elsePos + len "else " ->
        Pos (BlockStmt blk) = elsePos)
    /\ (isIfStmt els = true -> Rbrace blk = End els)
    /\ (forall b, els = BlockStmt b -> Rbrace blk = Rbrace b).
Proof.
  rewrite VisitStmt_else. intros H.
  apply bind_Done in H as ([h stmts1] & Hhead & H).
  apply bind_Done in H as (els1 & Hrw & H).
  apply bind_Done in H as ([els2 stmts2] & Hels & H).
  injection H as <- <-.
  assert (exists init' body', h = IfStmt if_ init' cond body' None)
    as (init' & body' & ->).
  { revert Hhead. simpl. fold (visitList fset). intros Hhead.
    apply bind_Done in Hhead as ([init' ?] & _ & Hhead).
    apply bind_Done in Hhead as ([body' ?] & _ & Hhead).
    injection Hhead as <- _. eauto. }
  assert (exists lb l rb,
            els1 = BlockStmt {| Lbrace := lb; List := l; Rbrace := rb |}
            /\ lb = Pos els - len "else ") as (lb & l & rb & Hshape & Hlb).
  { destruct els; simplify_eq/=; eauto 6. }
  destruct (visitList_Done_Lbrace _ _ _ _ _ _ _ _ Hshape Hels) as [l' ->].
  exists init', body', stmts1, els1, {| Lbrace := lb; List := l'; Rbrace := rb |}.
  repeat match goal with |- _ /\ _ => split end; try done.
  - by subst els1.
  - intros Hif. destruct els; simplify_eq/=; done.
  - intros b ->. by simplify_eq/=.
  - intros elsePos Hpos. cbn [Pos Stmt_Node Stmt_Pos Lbrace]. lia.
  - intros Hif. destruct els; simplify_eq/=; done.
  - intros b ->. by simplify_eq/=.
Qed.

Lemma else_branch_repositioning_witness :
  exists init' body' stmts1 els1 blk,
    VisitStmt sampleFile
      (IfStmt 20 None (Some (OtherExpr 23 28))
         {| Lbrace := 29; List := [ReturnStmt 31 []]; Rbrace := 38 |} None) [] =
      Done (IfStmt 20 init' (Some (OtherExpr 23 28)) body' None, stmts1)
    /\ rewriteElse sampleElseIf = Done els1
    /\ Pos els1 = Pos sampleElseIf - len "else "
    /\ (isIfStmt sampleElseIf = true ->
        els1 = BlockStmt {| Lbrace := Pos sampleElseIf - len "else ";
                            List := [sampleElseIf];
                            Rbrace := End sampleElseIf |})
    /\ (forall b, sampleElseIf = BlockStmt b ->
        els1 = BlockStmt {| Lbrace := Lbrace b - len "else ";
                            List := List b;
                            Rbrace := Rbrace b |})
    /\ VisitStmt sampleFile els1 stmts1 =
         Done (BlockStmt blk, snd (visited (VisitStmt sampleFile sampleIf [])))
    /\ Pos (BlockStmt blk) = Pos sampleElseIf - len "else "
    /\ fst (visited (VisitStmt sampleFile sampleIf [])) =
       IfStmt 20 init' (Some (OtherExpr 23 28)) body' (Some (BlockStmt blk))
    /\ (forall elsePos, Pos sampleElseIf = elsePos + len "else " ->
        Pos (BlockStmt blk) = elsePos)
    /\ (isIfStmt sampleElseIf = true -> Rbrace blk = End sampleElseIf)
    /\ (forall b, sampleElseIf = BlockStmt b -> Rbrace blk = Rbrace b).
Proof.
  apply (else_branch_repositioning sampleFile 20 None (Some (OtherExpr 23 28))
           {| Lbrace := 29; List := [ReturnStmt 31 []]; Rbrace := 38 |}
           sampleElseIf []).
  vm_compute. reflexivity.
Defined.

(** ** Function names *)

Lemma append_assoc (s1 s2 s3 : string) :
  (s1 +:+ s2) +:+ s3 = s1 +:+ s2 +:+ s3.
Proof.
  induction s1 as [|c s1 IH]; [done|].
  change (String c ((s1 +:+ s2) +:+ s3) = String c (s1 +:+ s2 +:+ s3)).
  by rewrite IH.
Qed.




(** ** Containment of the statement extents *)

Section Containment.

Variable fset : File.
Variables lo hi : Z.
Hypothesis Hbase : 0 < base fset.
Hypothesis Hlo : InFile fset lo.
Hypothesis Hhi : InFile fset hi.

Lemma mkExtent_extentIn (p q : Z) :
  lo <= p -> p <= q -> q <= hi -> extentIn fset lo hi (mkExtent fset p q).
Proof using Hbase Hlo Hhi.
  intros H1 H2 H3. unfold extentIn, mkExtent. simpl.
  rewrite !Position_of_Offset; try done; try lia;
    (eapply (InFile_between fset lo hi); [done | done | done | lia]).
Qed.

Lemma collectExpr_extentIn {A} `{Node A} (x : A) stmts :
  nodeIn lo hi x -> Forall (extentIn fset lo hi) stmts ->
  Forall (extentIn fset lo hi) (collectExpr fset x stmts).
Proof using Hbase Hlo Hhi.
  intros (? & ? & ?) Hs. apply Forall_app. split; [done|].
  apply Forall_singleton. by apply mkExtent_extentIn.
Qed.

Lemma collectToken_extentIn pos (text shown : string) stmts :
  tokenIn lo hi pos text -> len shown <= len text ->
  Forall (extentIn fset lo hi) stmts ->
  Forall (extentIn fset lo hi) (collectToken fset pos shown stmts).
Proof using Hbase Hlo Hhi.
  intros [? ?] Hlen Hs. apply Forall_app. split; [done|].
  apply Forall_singleton. pose proof (len_nonneg shown).
  apply mkExtent_extentIn; lia.
Qed.

Lemma staysIn_Done {A} (a : A) stmts :
  Forall (extentIn fset lo hi) stmts -> staysIn fset lo hi (Done (a, stmts)).
Proof. intros H a' stmts' [= _ <-]. done. Qed.

Lemma staysIn_bind {A B} (c : outcome (A * list StmtExtent))
    (k : A * list StmtExtent -> outcome (B * list StmtExtent)) :
  staysIn fset lo hi c ->
  (forall a stmts, Forall (extentIn fset lo hi) stmts -> staysIn fset lo hi (k (a, stmts))) ->
  staysIn fset lo hi (c ≫= k).
Proof.
  intros Hc Hk b stmts' H. apply bind_Done in H as ([a stmts1] & Hc1 & Hk1).
  eapply Hk; [|exact Hk1]. eapply Hc, Hc1.
Qed.

Lemma visitList_keepsIn (l : list Stmt) :
  list_all Stmt (keepsIn fset lo hi) l ->
  forall stmts,
    allWithin lo hi l -> Forall (extentIn fset lo hi) stmts ->
    staysIn fset lo hi (visitList fset l stmts).
Proof.
  induction 1 as [|x Hx r _ IH]; intros stmts Hw Hs.
  - by apply staysIn_Done.
  - destruct Hw as [Hwx Hwr]. simpl.
    apply staysIn_bind; [by apply Hx|]. intros x' stmts1 Hs1.
    apply staysIn_bind; [by apply IH|]. intros r' stmts2 Hs2.
    by apply staysIn_Done.
Qed.

Lemma option_all_keepsIn (s : Stmt) stmts :
  option_all Stmt (keepsIn fset lo hi) (Some s) ->
  within lo hi s -> Forall (extentIn fset lo hi) stmts ->
  staysIn fset lo hi (VisitStmt fset s stmts).
Proof. inversion 1; auto. Qed.

Lemma BlockOf_all_keepsIn (b : BlockStmtT) stmts :
  BlockOf_all Stmt (keepsIn fset lo hi) b ->
  allWithin lo hi (List b) -> Forall (extentIn fset lo hi) stmts ->
  staysIn fset lo hi (visitList fset (List b) stmts).
Proof. destruct 1. by apply visitList_keepsIn. Qed.

Lemma option_all_block_keepsIn (b : BlockStmtT) stmts :
  option_all Stmt (keepsIn fset lo hi) (Some (BlockStmt b)) ->
  within lo hi (BlockStmt b) -> Forall (extentIn fset lo hi) stmts ->
  staysIn fset lo hi (visitList fset (List b) stmts).
Proof.
  intros H Hw Hs l' stmts' Hv.
  eapply (option_all_keepsIn _ stmts H Hw Hs).
  rewrite VisitStmt_BlockStmt, Hv. reflexivity.
Qed.

Ltac stays_step :=
  lazymatch goal with
  | |- staysIn fset lo hi (Done _) => apply staysIn_Done
  | |- staysIn fset lo hi (Panicked _) => by intros ? ? ?
  | |- staysIn fset lo hi (_ ≫= _) =>
      apply staysIn_bind; [|intros ? ? ?; cbv beta match]
  | |- staysIn fset lo hi (visitList _ (List ?b) _) =>
      first [ apply BlockOf_all_keepsIn; [assumption|assumption|]
            | apply option_all_block_keepsIn; [assumption|assumption|] ]
  | |- staysIn fset lo hi (visitList _ _ _) =>
      apply visitList_keepsIn; [assumption|assumption|]
  | |- staysIn fset lo hi (VisitStmt _ _ _) =>
      first [ apply option_all_keepsIn; [assumption|assumption|]
            | match goal with IH : keepsIn _ _ _ _ |- _ => apply IH; [assumption|] end ]
  | |- staysIn fset lo hi (match ?x with _ => _ end) => destruct x
  | |- Forall _ (collectExpr _ _ _) =>
      apply collectExpr_extentIn; [assumption|]
  | |- Forall _ (collectToken _ _ _ _) =>
      eapply collectToken_extentIn;
      [ eassumption | first [ apply len_Token_String | lia ] | ]
  | |- Forall ?P (?st ++ [mkExtent _ (Expr_Pos ?c) (Expr_End ?c)]) =>
      change (Forall P (collectExpr fset c st))
  | |- Forall ?P (?st ++ [mkExtent _ ?p (?p + len ?t)]) =>
      change (Forall P (collectToken fset p t st))
  | |- Forall _ (match ?x with _ => _ end) => destruct x
  | |- Forall _ _ => assumption
  end.

Lemma VisitStmt_keepsIn (s : Stmt) : keepsIn fset lo hi s.
Proof using Hbase Hlo Hhi.
  induction s; intros stmts Hw Hs;
    simpl in Hw; fold (allWithin lo hi) in Hw; destruct_and?;
    simpl; fold (visitList fset);
    repeat stays_step.
Qed.

End Containment.

Lemma Visit_contained fset (node : AstNode) funcs funcs' :
  0 < base fset -> wellNested fset node ->
  Visit fset node funcs = Done funcs' ->
  Forall contained funcs -> Forall contained funcs'.
Proof.
  intros Hbase Hwf Hv Hfuncs. unfold Visit in Hv.
  apply bind_Done in Hv as ([body nm] & Hnode & Hv).
  assert (body = nodeBody node) as ->.
  { destruct node as [n|n|]; simpl in *; simplify_eq; try done.
    apply bind_Done in Hnode as (? & _ & ?). by simplify_eq. }
  unfold wellNested in Hwf. destruct (nodeBody node) as [body|]; [|by simplify_eq].
  destruct Hwf as (Hlo & Hhi & Hw).
  apply bind_Done in Hv as ([? stmts0] & Hbody & Hv). injection Hv as <-.
  apply Forall_app. split; [done|]. apply Forall_singleton.
  unfold contained. simpl.
  by eapply (VisitStmt_keepsIn fset (Pos node) (End node) Hbase Hlo Hhi
               (BlockStmt body) [] Hw).
Qed.

Lemma walk_contained fset (nodes : list AstNode) :
  0 < base fset -> Forall (wellNested fset) nodes ->
  forall funcs funcs',
    walk fset nodes funcs = Done funcs' ->
    Forall contained funcs -> Forall contained funcs'.
Proof.
  intros Hbase. induction 1 as [|node nodes Hnode _ IH]; intros funcs funcs' Hw Hf.
  - by simplify_eq/=.
  - simpl in Hw. apply bind_Done in Hw as (funcs1 & Hv & Hw).
    eapply IH; [exact Hw|]. by eapply Visit_contained.
Qed.

(** C9: in a file whose function nodes are well nested, every
    statement extent of every function that [findFuncs] returns starts
    at or after the start offset of the function and ends at or before
    its end offset. *)
Theorem statement_extents_within_function env name pf funcs :
  ParseFile env name = Done pf -> wellFormed pf ->
  findFuncs env name = Done funcs ->
  Forall contained funcs.
Proof.
  intros Hparse [Hbase Hnodes] Hfind. unfold findFuncs in Hfind.
  rewrite Hparse in Hfind. simpl in Hfind.
  by eapply walk_contained.
Qed.

Lemma statement_extents_within_function_witness :
  Forall contained
    [ {| name := "Widget.Draw"; ext := mkExtent sampleFile 1 37;
         stmts := [mkExtent sampleFile 30 31] |};
      {| name := "@3:5"; ext := mkExtent sampleFile 45 71;
         stmts := [mkExtent sampleFile 63 64] |} ].
Proof.
  apply (statement_extents_within_function sampleEnv "/src/m/widget.go"
           sampleParsed).
  - reflexivity.
  - split; [reflexivity|]. repeat constructor; vm_compute; intuition discriminate.
  - vm_compute. reflexivity.
Defined.

(** ** The block matcher *)

Lemma int64_idem (x : Z) : int64 (int64 x) = int64 x.
Proof.
  unfold int64. replace ((x + 2 ^ 63) mod 2 ^ 64 - 2 ^ 63 + 2 ^ 63)
    with ((x + 2 ^ 63) mod 2 ^ 64) by lia.
  by rewrite Z.mod_mod.
Qed.

Lemma int64_add_r (a b : Z) : int64 (a + int64 b) = int64 (a + b).
Proof.
  unfold int64.
  replace (a + ((b + 2 ^ 63) mod 2 ^ 64 - 2 ^ 63) + 2 ^ 63)
    with (a + (b + 2 ^ 63) mod 2 ^ 64) by lia.
  rewrite Zplus_mod_idemp_r. f_equal. f_equal. lia.
Qed.

Lemma int64_add_l (a b : Z) : int64 (int64 a + b) = int64 (a + b).
Proof. rewrite (Z.add_comm (int64 a)), int64_add_r. f_equal. lia. Qed.


#[global] Instance startsBefore_trans : Transitive startsBefore.
Proof. intros b1 b2 b3. unfold startsBefore. lia. Qed.


Lemma overlapCount_cons (s : StmtExtent) (b : ProfileBlock) blocks :
  overlapCount s (b :: blocks) =
  if overlaps s b then Count b + overlapCount s blocks
  else overlapCount s blocks.
Proof.
  unfold overlapCount. rewrite filter_cons.
  destruct (overlaps s b) eqn:Ho; case_decide; try done.
Qed.







(** ** The orchestrator *)

Section OrchestratorFacts.

Variable env : Collaborators.
Variable AddPackage : list Package -> Package -> list Package.

Lemma convertEntries_cons c pkgmap profile rest :
  convertEntries env c pkgmap (profile :: rest) =
  match pkgmap !! entryPkgPath profile with
  | None => Panicked nilDereference
  | Some pkg =>
      c ← convertFiles env c profile (entryFileName profile) (PkgPath pkg)
            (CompiledGoFiles pkg);
      convertEntries env c pkgmap rest
  end.
Proof.
  unfold entryPkgPath, entryFileName. simpl.
  by destruct (path_Split (FileName profile)).
Qed.

Lemma convertEntries_app c pkgmap pre post :
  convertEntries env c pkgmap (pre ++ post) =
  c ← convertEntries env c pkgmap pre; convertEntries env c pkgmap post.
Proof.
  revert c. induction pre as [|profile pre IH]; intros c; [done|].
  rewrite <- app_comm_cons, !convertEntries_cons.
  destruct (pkgmap !! entryPkgPath profile) as [pkg|]; [|done].
  destruct (convertFiles env c profile _ _ _) as [c1| |]; simpl; auto.
Qed.

Lemma convertFiles_no_match c profile filename pkgPath files :
  Forall (fun abspath => filepath_Base abspath <> filename) files ->
  convertFiles env c profile filename pkgPath files = Done c.
Proof.
  induction 1 as [|abspath files Hne _ IH]; [done|].
  simpl. by case_decide.
Qed.

Lemma convertEntries_unmatched c pkgmap profile rest :
  unmatched pkgmap profile ->
  convertEntries env c pkgmap (profile :: rest) =
  convertEntries env c pkgmap rest.
Proof.
  intros (pkg & Hpkg & Hfiles). rewrite convertEntries_cons, Hpkg.
  by rewrite convertFiles_no_match.
Qed.

Lemma convertEntries_all_unmatched c pkgmap profiles :
  Forall (unmatched pkgmap) profiles ->
  convertEntries env c pkgmap profiles = Done c.
Proof.
  induction 1 as [|profile profiles H _ IH]; [done|].
  by rewrite convertEntries_unmatched.
Qed.

End OrchestratorFacts.

Lemma validOrder_empty order i : validOrder order -> order i ∅ = [].
Proof.
  intros H. specialize (H i ∅). rewrite map_to_list_empty in H.
  by apply Permutation_nil_r in H.
Qed.

(** C10: a profile entry whose package is resolved but whose file name
    is the base name of none of the package's compiled files adds
    nothing and raises no error: the loop over the entries goes on as
    if the entry were not there, and an input made of such entries
    alone is converted with success, the packages unchanged. *)
Theorem unmatched_entry_is_skipped env AddPackage rangeOrder :
  (forall c pkgmap pre profile post,
     unmatched pkgmap profile ->
     convertEntries env c pkgmap (pre ++ profile :: post) =
     convertEntries env c pkgmap (pre ++ post))
  /\ (forall i filename ps profiles packages,
        validOrder rangeOrder ->
        ParseProfiles env filename = Done profiles ->
        Load env (uniqPackageNames env profiles ∅ []) = Done packages ->
        Forall (unmatched (mkPkgmap packages)) profiles ->
        convertInput env AddPackage rangeOrder i filename ps = Done ps).
Proof.
  split.
  - intros c pkgmap pre profile post H.
    rewrite !convertEntries_app.
    destruct (convertEntries env c pkgmap pre) as [c1| |]; simpl; try done.
    by apply convertEntries_unmatched.
  - intros i filename ps profiles packages Horder Hparse Hload Hall.
    unfold convertInput. rewrite Hparse. cbn [mbind outcome_bind].
    rewrite Hload. cbn [wrapError mbind outcome_bind].
    rewrite convertEntries_all_unmatched by done. cbn [mbind outcome_bind].
    by rewrite validOrder_empty.
Qed.

Lemma ascending_valid : validOrder ascending.
Proof. by intros i m. Qed.

Lemma descending_valid : validOrder descending.
Proof. intros i m. unfold descending. by rewrite reverse_Permutation. Qed.

Lemma strayProfile_unmatched :
  unmatched (mkPkgmap [{| PkgPath := "example.com/m";
                          CompiledGoFiles := ["/src/m/widget.go"] |}])
    strayProfile.
Proof.
  eexists. split; [reflexivity|]. repeat constructor. vm_compute. discriminate.
Qed.

Lemma unmatched_entry_is_skipped_witness :
  convertEntries sampleEnv ∅
    (mkPkgmap [{| PkgPath := "example.com/m";
                  CompiledGoFiles := ["/src/m/widget.go"] |}])
    ([sampleProfile] ++ strayProfile :: []) =
  convertEntries sampleEnv ∅
    (mkPkgmap [{| PkgPath := "example.com/m";
                  CompiledGoFiles := ["/src/m/widget.go"] |}])
    ([sampleProfile] ++ [])
  /\ convertInput sampleEnv AddPackage_byName ascending 0 "stray.out" [] = Done [].
Proof.
  destruct (unmatched_entry_is_skipped sampleEnv AddPackage_byName ascending)
    as [Hskip Hinput].
  split.
  - apply Hskip, strayProfile_unmatched.
  - eapply Hinput.
    + apply ascending_valid.
    + reflexivity.
    + reflexivity.
    + repeat constructor. apply strayProfile_unmatched.
Defined.

(** C3, on the code: an entry whose package is missing from the
    resolved set makes [ConvertProfiles] panic on the nil package; no
    error is returned. *)
Theorem missing_package_panics env AddPackage rangeOrder
    filename rest pre profile post packages c :
  ParseProfiles env filename = Done (pre ++ profile :: post) ->
  Load env (uniqPackageNames env (pre ++ profile :: post) ∅ []) = Done packages ->
  convertEntries env ∅ (mkPkgmap packages) pre = Done c ->
  mkPkgmap packages !! entryPkgPath profile = None ->
  ConvertProfiles env AddPackage rangeOrder (filename :: rest)
  = Panicked nilDereference.
Proof.
  intros Hparse Hload Hpre Hmiss.
  unfold ConvertProfiles. simpl. unfold convertInput.
  rewrite Hparse. cbn [mbind outcome_bind].
  rewrite Hload. cbn [wrapError mbind outcome_bind].
  rewrite convertEntries_app, Hpre. cbn [mbind outcome_bind].
  by rewrite convertEntries_cons, Hmiss.
Qed.

Lemma missing_package_panics_witness :
  ConvertProfiles sampleEnv AddPackage_byName ascending ["bare.out"]
  = Panicked nilDereference.
Proof.
  apply (missing_package_panics sampleEnv AddPackage_byName ascending
           "bare.out" [] [] bareProfile []
           [{| PkgPath := "example.com/m";
               CompiledGoFiles := ["/src/m/widget.go"] |}] ∅);
    reflexivity.
Defined.

(** ** Independence of the order of [range] over the packages *)

Section Determinism.

Variable env : Collaborators.
Variable AddPackage : list Package -> Package -> list Package.
Hypothesis AddPackage_comm : orderInsensitive AddPackage.

Lemma wrapError_Done {A} prefix (c : outcome A) a :
  wrapError prefix c = Done a -> c = Done a.
Proof. by destruct c. Qed.

Lemma convertProfile_namesAreKeys c p absFilePath pkgPath c' :
  namesAreKeys c ->
  convertProfile env c p absFilePath pkgPath = Done c' ->
  namesAreKeys c'.
Proof.
  intros Hc H. unfold convertProfile in H.
  apply bind_Done in H as (extents & _ & H). injection H as <-.
  intros k pkg Hk. destruct (decide (pkgPath = k)) as [->|Hne].
  - rewrite lookup_insert_eq in Hk. injection Hk as <-. simpl.
    destruct (c !! k) as [pkg0|] eqn:Hpkg0; simpl; [by apply Hc|done].
  - rewrite lookup_insert_ne in Hk by done. by apply Hc.
Qed.

Lemma convertFiles_namesAreKeys profile filename pkgPath files :
  forall c c',
    namesAreKeys c ->
    convertFiles env c profile filename pkgPath files = Done c' ->
    namesAreKeys c'.
Proof.
  induction files as [|abspath files IH]; intros c c' Hc H; simpl in H.
  - by injection H as <-.
  - case_decide; [|by eapply IH].
    apply bind_Done in H as (c1 & H1 & H).
    apply wrapError_Done in H1.
    eapply IH; [|exact H]. by eapply convertProfile_namesAreKeys.
Qed.

Lemma convertEntries_namesAreKeys pkgmap profiles :
  forall c c',
    namesAreKeys c ->
    convertEntries env c pkgmap profiles = Done c' ->
    namesAreKeys c'.
Proof.
  induction profiles as [|profile profiles IH]; intros c c' Hc H.
  - by injection H as <-.
  - rewrite convertEntries_cons in H.
    destruct (pkgmap !! entryPkgPath profile) as [pkg|]; [|done].
    apply bind_Done in H as (c1 & H1 & H).
    eapply IH; [|exact H]. by eapply convertFiles_namesAreKeys.
Qed.

Lemma namesAreKeys_NoDup c :
  namesAreKeys c -> NoDup (PName <$> (map_to_list c).*2).
Proof.
  intros Hc.
  assert (PName <$> (map_to_list c).*2 = (map_to_list c).*1) as ->.
  { rewrite <- list_fmap_compose. apply list_fmap_ext.
    intros i [k pkg] Hi. simpl. apply Hc.
    apply elem_of_map_to_list. by eapply list_elem_of_lookup_2. }
  apply NoDup_fst_map_to_list.
Qed.

Lemma foldl_AddPackage_Permutation (l1 l2 : list Package) :
  l1 ≡ₚ l2 -> NoDup (PName <$> l1) ->
  forall ps, foldl AddPackage ps l1 = foldl AddPackage ps l2.
Proof using AddPackage_comm.
  induction 1 as [|x l1 l2 Hperm IH|x y l|l1 l2 l3 H12 IH12 H23 IH23];
    intros Hnd ps.
  - done.
  - simpl. apply IH. by apply NoDup_cons in Hnd as [_ ?].
  - simpl. f_equal. apply AddPackage_comm.
    apply NoDup_cons in Hnd as [Hy _]. intros Heq. apply Hy.
    rewrite Heq. simpl. left.
  - rewrite IH12 by done. apply IH23. by rewrite <- H12.
Qed.

Lemma convertInput_order order1 order2 i filename ps :
  validOrder order1 -> validOrder order2 ->
  convertInput env AddPackage order1 i filename ps =
  convertInput env AddPackage order2 i filename ps.
Proof using AddPackage_comm.
  intros H1 H2. unfold convertInput.
  destruct (ParseProfiles env filename) as [profiles| |]; simpl; try done.
  destruct (wrapError _ _) as [packages| |]; simpl; try done.
  destruct (convertEntries env ∅ (mkPkgmap packages) profiles)
    as [c| |] eqn:Hc; simpl; try done.
  f_equal. apply foldl_AddPackage_Permutation.
  - by rewrite (H1 i c), (H2 i c).
  - rewrite (H1 i c). apply namesAreKeys_NoDup.
    eapply convertEntries_namesAreKeys; [|exact Hc]. intros k pkg Hk.
    by rewrite lookup_empty in Hk.
Qed.

Lemma convertInputs_order order1 order2 filenames :
  validOrder order1 -> validOrder order2 ->
  forall i ps,
    convertInputs env AddPackage order1 i filenames ps =
    convertInputs env AddPackage order2 i filenames ps.
Proof using AddPackage_comm.
  intros H1 H2. induction filenames as [|filename rest IH]; intros i ps; [done|].
  simpl. rewrite (convertInput_order order1 order2) by done.
  destruct (convertInput env AddPackage order2 i filename ps); simpl; auto.
Qed.

End Determinism.

(** X24: the range order can reach the output only through the
    accumulator: for an accumulator [AddPackage] that gives the same
    list whichever of two packages of different names is added first,
    the bytes that [ConvertProfiles] returns are the same for every
    order in which the runtime ranges over the packages of the
    converter. *)
Theorem ConvertProfiles_deterministic env AddPackage order1 order2 filenames :
  orderInsensitive AddPackage ->
  validOrder order1 -> validOrder order2 ->
  ConvertProfiles env AddPackage order1 filenames =
  ConvertProfiles env AddPackage order2 filenames.
Proof.
  intros Hcomm H1 H2. unfold ConvertProfiles.
  by rewrite (convertInputs_order env AddPackage Hcomm order1 order2).
Qed.

(** The order of Go's string comparison. *)
Lemma Ascii_compare_refl (a : ascii) : Ascii.compare a a = Eq.
Proof. unfold Ascii.compare. apply N.compare_refl. Qed.

Lemma Ascii_compare_Lt_trans (a b c : ascii) :
  Ascii.compare a b = Lt -> Ascii.compare b c = Lt -> Ascii.compare a c = Lt.
Proof. unfold Ascii.compare. rewrite !N.compare_lt_iff. lia. Qed.

Lemma String_compare_refl (s : string) : String.compare s s = Eq.
Proof. induction s as [|a s IH]; [done|]. simpl. by rewrite Ascii_compare_refl. Qed.

Lemma String_compare_Lt_trans (s1 s2 s3 : string) :
  String.compare s1 s2 = Lt -> String.compare s2 s3 = Lt ->
  String.compare s1 s3 = Lt.
Proof.
  revert s2 s3. induction s1 as [|a s1 IH]; intros [|b s2] [|c s3]; simpl; try done.
  destruct (Ascii.compare a b) eqn:Hab; try done;
    destruct (Ascii.compare b c) eqn:Hbc; try done; intros H12 H23.
  - apply Ascii.compare_eq_iff in Hab as ->. apply Ascii.compare_eq_iff in Hbc as ->.
    rewrite Ascii_compare_refl. by eapply IH.
  - apply Ascii.compare_eq_iff in Hab as ->. by rewrite Hbc.
  - apply Ascii.compare_eq_iff in Hbc as ->. by rewrite Hab.
  - by rewrite (Ascii_compare_Lt_trans a b c).
Qed.

Lemma String_compare_Gt_Lt (s1 s2 : string) :
  String.compare s1 s2 = Gt -> String.compare s2 s1 = Lt.
Proof. rewrite String.compare_antisym. by destruct (String.compare s2 s1). Qed.

Lemma String_compare_Lt_Gt (s1 s2 : string) :
  String.compare s1 s2 = Lt -> String.compare s2 s1 = Gt.
Proof. rewrite String.compare_antisym. by destruct (String.compare s2 s1). Qed.

Lemma String_compare_Lt_irrefl (s : string) : String.compare s s <> Lt.
Proof. by rewrite String_compare_refl. Qed.

Ltac compare_contradiction :=
  repeat match goal with
         | H : String.compare _ _ = Gt |- _ => apply String_compare_Gt_Lt in H
         end;
  exfalso;
  match goal with
  | H : String.compare ?a ?a = Lt |- _ =>
      by apply String_compare_Lt_irrefl in H
  | H1 : String.compare ?a ?b = Lt, H2 : String.compare ?b ?a = Lt |- _ =>
      by apply (String_compare_Lt_irrefl a), (String_compare_Lt_trans a b a)
  | H1 : String.compare ?a ?b = Lt, H2 : String.compare ?b ?c = Lt,
    H3 : String.compare ?c ?a = Lt |- _ =>
      by apply (String_compare_Lt_irrefl a), (String_compare_Lt_trans a c a);
           [apply (String_compare_Lt_trans a b c)|]
  end.

Lemma AddPackage_byName_orderInsensitive : orderInsensitive AddPackage_byName.
Proof.
  intros ps p q Hne. induction ps as [|x ps IH]; simpl.
  - rewrite (String.compare_antisym (PName q) (PName p)).
    destruct (String.compare (PName p) (PName q)) eqn:Hpq; simpl; try done.
    by apply String.compare_eq_iff in Hpq.
  - destruct (String.compare (PName p) (PName x)) eqn:Hpx;
      destruct (String.compare (PName q) (PName x)) eqn:Hqx; simpl;
      rewrite ?Hpx, ?Hqx; simpl.
    all: try (apply String.compare_eq_iff in Hpx).
    all: try (apply String.compare_eq_iff in Hqx).
    all: try congruence.
    all: rewrite ?(String.compare_antisym (PName q) (PName p)).
    all: destruct (String.compare (PName p) (PName q)) eqn:Hpq; simpl; try done.
    all: try (by apply String.compare_eq_iff in Hpq).
    all: try (rewrite Hpx in Hpq).
    all: try (rewrite Hqx in Hpq).
    all: compare_contradiction.
Qed.

Lemma pairConverter :
  convertEntries pairEnv ∅ (mkPkgmap pairPackages) [sampleProfile; libProfile]
  = Done pairConverted.
Proof. reflexivity. Qed.

Lemma ConvertProfiles_deterministic_witness :
  ascending 0 pairConverted <> descending 0 pairConverted
  /\ ConvertProfiles pairEnv AddPackage_byName ascending ["pair.out"; "cover.out"] =
     ConvertProfiles pairEnv AddPackage_byName descending ["pair.out"; "cover.out"].
Proof.
  split.
  - intros H. vm_compute in H. discriminate H.
  - apply ConvertProfiles_deterministic.
    + exact AddPackage_byName_orderInsensitive.
    + exact ascending_valid.
    + exact descending_valid.
Defined.

(** With an accumulator that puts a package of a new name last, the
    range order shows in the bytes. *)
Lemma range_order_reaches_output :
  ConvertProfiles pairEnv AddPackage_append ascending ["pair.out"] <>
  ConvertProfiles pairEnv AddPackage_append descending ["pair.out"].
Proof. intros H. vm_compute in H. discriminate H. Qed.

(** * Further properties of the code *)

(** ** The block matcher *)

(** X1: the loop stops at the first block past the statement: what comes
    after it is not looked at, whether it overlaps or not. *)
Theorem matchBlocks_stops_at_past (s : StmtExtent) pre b post reached :
  Forall (fun b' => past b' s = false) pre ->
  past b s = true ->
  matchBlocks s (pre ++ b :: post) reached = matchBlocks s pre reached.
Proof.
  intros Hpre Hb. revert reached.
  induction Hpre as [|b' pre Hb' _ IH]; intros reached; simpl.
  - by rewrite Hb.
  - rewrite Hb'. destruct (before b' s); apply IH.
Qed.

Lemma matchBlocks_stops_at_past_witness :
  matchBlocks (mkExtent sampleFile 30 31) ([] ++ unsortedBlocks) 0
  = matchBlocks (mkExtent sampleFile 30 31) [] 0.
Proof. by apply matchBlocks_stops_at_past. Defined.

Lemma matchBlocks_prefix_sum (s : StmtExtent) blocks :
  forall reached, int64 reached = reached ->
    matchBlocks s blocks reached =
    int64 (reached
           + overlapCount s (scanned s blocks)).
Proof.
  induction blocks as [|b blocks IH]; intros reached Hr; simpl.
  - unfold overlapCount. simpl. by rewrite Z.add_0_r.
  - destruct (past b s) eqn:Hpast; simpl.
    + unfold overlapCount. simpl. by rewrite Z.add_0_r.
    + rewrite overlapCount_cons. unfold overlaps. rewrite Hpast. simpl.
      destruct (before b s); simpl; [by apply IH|].
      rewrite IH by apply int64_idem. rewrite int64_add_l.
      replace (reached + int64 (Count b) + overlapCount s (scanned s blocks))
        with (reached + overlapCount s (scanned s blocks) + int64 (Count b))
        by lia.
      rewrite int64_add_r. f_equal. lia.
Qed.

(** X2: in any order of the blocks, the counter is the [int64] sum of the
    overlapping blocks that come before the first block past the
    statement. *)
Theorem matchStatement_any_order (s : StmtExtent) (blocks : list ProfileBlock) :
  Reached (matchStatement blocks s) =
  int64 (overlapCount s (scanned s blocks)).
Proof. simpl. by rewrite matchBlocks_prefix_sum. Qed.

(** X4: a statement that no block overlaps keeps the counter 0, in any
    order of the blocks. *)
Theorem no_overlap_not_reached (s : StmtExtent) (blocks : list ProfileBlock) :
  Forall (fun b => overlaps s b = false) blocks ->
  Reached (matchStatement blocks s) = 0.
Proof.
  intros H. simpl. induction H as [|b blocks Hb _ IH]; simpl; [done|].
  unfold overlaps in Hb. destruct (past b s); [done|].
  destruct (before b s); [done|]. done.
Qed.

Lemma no_overlap_not_reached_witness :
  Reached (matchStatement sampleBlocks (mkExtent sampleFile 1 5)) = 0.
Proof.
  apply no_overlap_not_reached. repeat constructor.
Defined.

(** X5: the test of the matcher is the intersection test of half-open
    ranges in the order of (line, column): the block starts before the
    end of the statement and the statement starts before the end of the
    block. *)
Theorem overlaps_is_range_intersection (s : StmtExtent) (b : ProfileBlock) :
  overlaps s b =
  posLt (StartLine b) (StartCol b) (endLine s) (endCol s)
  && posLt (startLine s) (startCol s) (EndLine b) (EndCol b).
Proof.
  unfold overlaps, past, before, posLt.
  destruct (Z.ltb_spec (endLine s) (StartLine b)),
           (Z.ltb_spec (StartLine b) (endLine s)),
           (Z.eqb_spec (StartLine b) (endLine s)),
           (Z.leb_spec (endCol s) (StartCol b)),
           (Z.ltb_spec (StartCol b) (endCol s)),
           (Z.ltb_spec (EndLine b) (startLine s)),
           (Z.ltb_spec (startLine s) (EndLine b)),
           (Z.eqb_spec (EndLine b) (startLine s)),
           (Z.eqb_spec (startLine s) (EndLine b)),
           (Z.leb_spec (EndCol b) (startCol s)),
           (Z.ltb_spec (startCol s) (EndCol b));
    simpl; try reflexivity; lia.
Qed.

(** ** The orchestrator: failures of the collaborators *)

Lemma convertInputs_app env AddPackage rangeOrder pre post :
  forall i ps,
    convertInputs env AddPackage rangeOrder i (pre ++ post) ps =
    ps ← convertInputs env AddPackage rangeOrder i pre ps;
    convertInputs env AddPackage rangeOrder (i + length pre)%nat post ps.
Proof.
  induction pre as [|filename pre IH]; intros i ps; simpl.
  - by rewrite Nat.add_0_r.
  - destruct (convertInput env AddPackage rangeOrder i filename ps) as [ps1| |];
      simpl; try done.
    rewrite IH. by replace (S i + length pre)%nat with (i + S (length pre))%nat by lia.
Qed.

(** X6: an input that cannot be converted ends the conversion: the inputs
    after it are not read, nothing is encoded, and the error or the
    panic of that input is the result. *)
Theorem ConvertProfiles_stops_at_first_failure env AddPackage rangeOrder
    pre filename post ps :
  convertInputs env AddPackage rangeOrder 0 pre [] = Done ps ->
  (forall e,
     convertInput env AddPackage rangeOrder (length pre) filename ps = Failed e ->
     ConvertProfiles env AddPackage rangeOrder (pre ++ filename :: post) = Failed e)
  /\ (forall msg,
        convertInput env AddPackage rangeOrder (length pre) filename ps = Panicked msg ->
        ConvertProfiles env AddPackage rangeOrder (pre ++ filename :: post)
        = Panicked msg).
Proof.
  intros Hpre. unfold ConvertProfiles.
  split; intros x Hx; rewrite convertInputs_app, Hpre; simpl; by rewrite Hx.
Qed.

Lemma ConvertProfiles_stops_at_first_failure_witness :
  ConvertProfiles sampleEnv AddPackage_byName ascending
    (["cover.out"] ++ "missing.out" :: ["cover.out"])
  = Failed "open missing.out: no such file or directory".
Proof.
  eapply (ConvertProfiles_stops_at_first_failure sampleEnv AddPackage_byName
            ascending ["cover.out"] "missing.out" ["cover.out"]);
    vm_compute; reflexivity.
Defined.

(** X7: the error of the profile reader is returned as it is, the error of
    the package resolver behind the prefix "load packages: ". *)
Theorem reader_and_resolver_errors env AddPackage rangeOrder i filename ps :
  (forall e,
     ParseProfiles env filename = Failed e ->
     convertInput env AddPackage rangeOrder i filename ps = Failed e)
  /\ (forall profiles e,
        ParseProfiles env filename = Done profiles ->
        Load env (uniqPackageNames env profiles ∅ []) = Failed e ->
        convertInput env AddPackage rangeOrder i filename ps
        = Failed ("load packages: " +:+ e)).
Proof.
  split.
  - intros e H. unfold convertInput. by rewrite H.
  - intros profiles e Hp Hl. unfold convertInput. rewrite Hp. simpl. by rewrite Hl.
Qed.

Lemma reader_and_resolver_errors_witness :
  convertInput sampleEnv AddPackage_byName ascending 0 "missing.out" []
  = Failed "open missing.out: no such file or directory"
  /\ convertInput unresolvedEnv AddPackage_byName ascending 0 "cover.out" []
     = Failed "load packages: go list: exit status 1".
Proof.
  split.
  - by apply (reader_and_resolver_errors sampleEnv).
  - by eapply (reader_and_resolver_errors unresolvedEnv).
Defined.

Lemma convertFiles_match_fails env c profile filename pkgPath abspath files e :
  filepath_Base abspath = filename ->
  ParseFile env abspath = Failed e ->
  convertFiles env c profile filename pkgPath (abspath :: files)
  = Failed ("convert profile " +:+ FileName profile +:+ ": " +:+ e).
Proof.
  intros Hbase Hparse. simpl. rewrite decide_True by done.
  unfold convertProfile, findFuncs. rewrite Hparse. simpl.
  by rewrite !append_assoc.
Qed.

Lemma convertFiles_first_match_fails env c profile filename pkgPath
    before abspath after e :
  Forall (fun f => filepath_Base f <> filename) before ->
  filepath_Base abspath = filename ->
  ParseFile env abspath = Failed e ->
  convertFiles env c profile filename pkgPath (before ++ abspath :: after)
  = Failed ("convert profile " +:+ FileName profile +:+ ": " +:+ e).
Proof.
  intros Hbefore Hbase Hparse. induction Hbefore as [|f before Hf _ IH].
  - by apply convertFiles_match_fails.
  - simpl. case_decide; [done|apply IH].
Qed.

(** X8: a source file that does not parse ends the conversion with the
    parser's error behind "convert profile <file name>: ". *)
Theorem parse_error_is_wrapped env c pkgmap profile rest pkg before abspath after e :
  pkgmap !! entryPkgPath profile = Some pkg ->
  CompiledGoFiles pkg = before ++ abspath :: after ->
  Forall (fun f => filepath_Base f <> entryFileName profile) before ->
  filepath_Base abspath = entryFileName profile ->
  ParseFile env abspath = Failed e ->
  convertEntries env c pkgmap (profile :: rest)
  = Failed ("convert profile " +:+ FileName profile +:+ ": " +:+ e).
Proof.
  intros Hpkg Hfiles Hbefore Hbase Hparse.
  rewrite convertEntries_cons, Hpkg, Hfiles.
  by rewrite (convertFiles_first_match_fails env c profile _ _ before abspath after e).
Qed.

Lemma parse_error_is_wrapped_witness :
  convertEntries unparsedEnv ∅
    (mkPkgmap [{| PkgPath := "example.com/m";
                  CompiledGoFiles := ["/src/m/widget.go"] |}])
    [sampleProfile]
  = Failed ("convert profile " +:+ FileName sampleProfile +:+ ": "
            +:+ "/src/m/widget.go:1:1: expected 'package'").
Proof.
  eapply (parse_error_is_wrapped unparsedEnv ∅ _ sampleProfile [] _ []
            "/src/m/widget.go" []); try reflexivity.
  constructor.
Defined.

(** ** The orchestrator: the two tables built from the profiles *)

#[local] Set Warnings "-clear-no-such-hyp".

Lemma uniqPackageNames_spec env profiles :
  forall seen names,
    NoDup names -> (forall n, n ∈ names -> n ∈ seen) ->
    NoDup (uniqPackageNames env profiles seen names)
    /\ forall n,
         n ∈ (uniqPackageNames env profiles seen names) <->
         n ∈ names \/ ((n ∉ seen) /\ n ∈ (entryDir env <$> profiles)).
Proof.
  induction profiles as [|profile profiles IH]; intros seen names Hnd Hsub; simpl.
  - split; [done|]. intros n. set_solver.
  - fold (entryDir env profile). case_decide as Hseen.
    + destruct (IH seen names Hnd Hsub) as [Hnd' Hiff]. split; [done|].
      intros n. rewrite Hiff. set_solver.
    + destruct (IH ({[entryDir env profile]} ∪ seen)
                   (names ++ [entryDir env profile])) as [Hnd' Hiff].
      * apply NoDup_app. repeat split; [done| |apply NoDup_singleton].
        intros n Hn Hn'. apply list_elem_of_singleton in Hn' as ->.
        by apply Hseen, Hsub.
      * intros n Hn. set_solver.
      * split; [done|]. intros n. rewrite Hiff.
        destruct (decide (n = entryDir env profile)) as [->|Hne]; set_solver.
Qed.

(** X9: the package names handed to the resolver: each directory of a
    profile entry once, and nothing else. *)
Theorem uniqPackageNames_distinct env (profiles : list Profile) :
  NoDup (uniqPackageNames env profiles ∅ [])
  /\ forall n,
       n ∈ uniqPackageNames env profiles ∅ [] <->
       exists profile, profile ∈ profiles /\ path_Dir env (FileName profile) = n.
Proof.
  destruct (uniqPackageNames_spec env profiles ∅ []) as [Hnd Hiff].
  { constructor. }
  { intros n Hn. by apply elem_of_nil in Hn. }
  split; [done|]. intros n. rewrite Hiff, list_elem_of_fmap.
  split.
  - intros [Hn|[_ (profile & -> & Hp)]]; [by apply elem_of_nil in Hn|eauto].
  - intros (profile & Hp & <-). right. split; [set_solver|]. eauto.
Qed.

Lemma mkPkgmap_snoc (packages : list GoPackage) (pkg : GoPackage) :
  mkPkgmap (packages ++ [pkg]) = <[PkgPath pkg := pkg]> (mkPkgmap packages).
Proof. unfold mkPkgmap. by rewrite foldl_app. Qed.

(** X10: in [pkgmap] a path leads to the last resolved package of that
    path, and to nothing when no resolved package has it. *)
Theorem mkPkgmap_lookup (packages : list GoPackage) (k : string) :
  mkPkgmap packages !! k = last (filter (fun pkg => PkgPath pkg = k) packages).
Proof.
  induction packages as [|pkg packages IH] using rev_ind; [done|].
  rewrite mkPkgmap_snoc, filter_app, filter_cons, filter_nil.
  destruct (decide (PkgPath pkg = k)) as [<-|Hne].
  - by rewrite lookup_insert_eq, last_snoc.
  - by rewrite lookup_insert_ne, app_nil_r.
Qed.

(** ** The orchestrator: what a profile entry adds *)

Lemma convertFiles_filter env c profile filename pkgPath files :
  convertFiles env c profile filename pkgPath files =
  convertFiles env c profile filename pkgPath
    (filter (fun abspath => filepath_Base abspath = filename) files).
Proof.
  revert c. induction files as [|abspath files IH]; intros c; [done|].
  rewrite filter_cons. simpl. case_decide; [|done]. simpl.
  rewrite decide_True by done.
  destruct (wrapError _ _) as [c1| |]; simpl; auto.
Qed.

Lemma convertFiles_all_match env profile filename pkgPath files :
  Forall (fun abspath => filepath_Base abspath = filename) files ->
  forall c c',
    convertFiles env c profile filename pkgPath files = Done c' ->
    exists found,
      Forall2 (fun abspath extents => findFuncs env abspath = Done extents)
        files found
      /\ (forall k, k <> pkgPath -> c' !! k = c !! k)
      /\ (files = [] -> c' = c)
      /\ (files <> [] ->
          c' !! pkgPath =
          Some {| PName := PName (packageOf c pkgPath);
                  Functions := Functions (packageOf c pkgPath)
                               ++ functionsOf profile files found |}).
Proof.
  induction 1 as [|abspath files Hbase _ IH]; intros c c' H; simpl in H.
  - injection H as <-. exists []. repeat split; try done; constructor.
  - rewrite decide_True in H by done.
    apply bind_Done in H as (c1 & H1 & H). apply wrapError_Done in H1.
    unfold convertProfile in H1.
    apply bind_Done in H1 as (extents & Hfind & H1). injection H1 as <-.
    destruct (IH _ _ H) as (found & Hfound & Hother & Hnil & Hcons).
    exists (extents :: found). repeat split.
    + by constructor.
    + intros k Hk. by rewrite Hother, lookup_insert_ne.
    + done.
    + intros _. fold (packageOf c pkgPath) in *.
      unfold functionsOf. simpl. fold (functionsOf profile files found).
      destruct files as [|abspath' files].
      * rewrite (Hnil eq_refl), lookup_insert_eq.
        apply Forall2_nil_inv_l in Hfound as ->.
        unfold functionsOf. simpl. by rewrite app_nil_r.
      * rewrite Hcons by done.
        assert (packageOf (<[pkgPath :=
                  {| PName := PName (packageOf c pkgPath);
                     Functions := Functions (packageOf c pkgPath) ++
                       (convertFunction abspath (Blocks profile) <$> extents) |}]>
                  c) pkgPath =
                {| PName := PName (packageOf c pkgPath);
                   Functions := Functions (packageOf c pkgPath) ++
                     (convertFunction abspath (Blocks profile) <$> extents) |})
          as -> by (unfold packageOf at 1; by rewrite lookup_insert_eq).
        simpl. by rewrite app_assoc.
Qed.

(** X11: for a profile entry, each compiled file of the package with the
    base name of the entry is converted, in the order of the list and
    not only the first one: if the loop returns, function discovery
    returned for every such file, the functions of all of them are
    appended, file after file, to the functions that the package had,
    and every other package is as before. *)
Theorem convertFiles_every_match env c profile filename pkgPath files c' :
  convertFiles env c profile filename pkgPath files = Done c' ->
  exists found,
    Forall2 (fun abspath extents => findFuncs env abspath = Done extents)
      (filter (fun abspath => filepath_Base abspath = filename) files) found
    /\ (forall k, k <> pkgPath -> c' !! k = c !! k)
    /\ (filter (fun abspath => filepath_Base abspath = filename) files = [] ->
        c' = c)
    /\ (filter (fun abspath => filepath_Base abspath = filename) files <> [] ->
        c' !! pkgPath =
        Some {| PName := PName (packageOf c pkgPath);
                Functions :=
                  Functions (packageOf c pkgPath)
                  ++ functionsOf profile
                       (filter (fun abspath => filepath_Base abspath = filename)
                          files) found |}).
Proof.
  rewrite convertFiles_filter. apply convertFiles_all_match.
  apply Forall_forall. by intros abspath [? _]%list_elem_of_filter.
Qed.

Lemma convertFiles_every_match_witness :
  exists found,
    Forall2 (fun abspath extents => findFuncs twinEnv abspath = Done extents)
      ["/src/m/widget.go"; "/gen/m/widget.go"] found
    /\ (forall k, k <> "example.com/m" -> twinConverted !! k = onceConverted !! k)
    /\ (["/src/m/widget.go"; "/gen/m/widget.go"] = [] ->
        twinConverted = onceConverted)
    /\ (["/src/m/widget.go"; "/gen/m/widget.go"] <> [] ->
        twinConverted !! "example.com/m" =
        Some {| PName := "example.com/m";
                Functions :=
                  sampleFunctions
                  ++ functionsOf sampleProfile
                       ["/src/m/widget.go"; "/gen/m/widget.go"] found |}).
Proof.
  apply (convertFiles_every_match twinEnv onceConverted sampleProfile
           "widget.go" "example.com/m"
           ["/src/m/widget.go"; "/src/m/gadget.go"; "/gen/m/widget.go"]).
  reflexivity.
Defined.

Lemma extends_refl c : extends c c.
Proof. intros k pkg H. by exists pkg. Qed.

Lemma extends_trans c1 c2 c3 : extends c1 c2 -> extends c2 c3 -> extends c1 c3.
Proof.
  intros H12 H23 k pkg H.
  destruct (H12 k pkg H) as (pkg2 & H2 & Hn2 & Hp2).
  destruct (H23 k pkg2 H2) as (pkg3 & H3 & Hn3 & Hp3).
  exists pkg3. repeat split; [done|congruence|by etrans].
Qed.

Lemma convertProfile_extends env c p absFilePath pkgPath c' :
  convertProfile env c p absFilePath pkgPath = Done c' -> extends c c'.
Proof.
  intros H. unfold convertProfile in H.
  apply bind_Done in H as (extents & _ & H). injection H as <-.
  intros k pkg Hk. destruct (decide (pkgPath = k)) as [->|Hne].
  - rewrite lookup_insert_eq, Hk. simpl. eexists. repeat split.
    by apply prefix_app_r.
  - rewrite lookup_insert_ne by done. by exists pkg.
Qed.

Lemma convertFiles_extends env profile filename pkgPath files :
  forall c c',
    convertFiles env c profile filename pkgPath files = Done c' -> extends c c'.
Proof.
  induction files as [|abspath files IH]; intros c c' H; simpl in H.
  - injection H as <-. apply extends_refl.
  - case_decide; [|by apply IH].
    apply bind_Done in H as (c1 & H1 & H). apply wrapError_Done in H1.
    eapply extends_trans; [by eapply convertProfile_extends|by apply IH].
Qed.

(** X12: the loop over the entries only adds: a package of the converter
    stays, under its name, and the functions it had stay the first of
    its functions, in their order. *)
Theorem convertEntries_extends env pkgmap profiles :
  forall c c',
    convertEntries env c pkgmap profiles = Done c' -> extends c c'.
Proof.
  induction profiles as [|profile profiles IH]; intros c c' H.
  - injection H as <-. apply extends_refl.
  - rewrite convertEntries_cons in H.
    destruct (pkgmap !! entryPkgPath profile) as [pkg|]; [|done].
    apply bind_Done in H as (c1 & H1 & H).
    eapply extends_trans; [by eapply convertFiles_extends|by apply IH].
Qed.

Lemma convertProfile_fromResolved env pkgmap c p absFilePath key gp c' :
  pkgmap !! key = Some gp -> absFilePath ∈ CompiledGoFiles gp ->
  fromResolved pkgmap c ->
  convertProfile env c p absFilePath (PkgPath gp) = Done c' ->
  fromResolved pkgmap c'.
Proof.
  intros Hgp Habs Hc H. unfold convertProfile in H.
  apply bind_Done in H as (extents & _ & H). injection H as <-.
  intros k pkg Hk. destruct (decide (PkgPath gp = k)) as [<-|Hne].
  - rewrite lookup_insert_eq in Hk. injection Hk as <-. simpl.
    destruct (c !! PkgPath gp) as [pkg0|] eqn:Hpkg0; simpl.
    + destruct (Hc _ _ Hpkg0) as (Hname & Hpath & Hfuncs).
      split; [done|]. split; [done|].
      intros f [Hf|Hf]%elem_of_app; [by apply Hfuncs|].
      apply list_elem_of_fmap in Hf as (fe & -> & _). simpl. eauto.
    + split; [done|]. split; [eauto|]. intros f Hf.
      apply list_elem_of_fmap in Hf as (fe & -> & _). simpl. eauto.
  - rewrite lookup_insert_ne in Hk by done. by apply Hc.
Qed.

Lemma convertFiles_fromResolved env pkgmap profile filename key gp files :
  pkgmap !! key = Some gp ->
  (forall abspath, abspath ∈ files -> abspath ∈ CompiledGoFiles gp) ->
  forall c c',
    fromResolved pkgmap c ->
    convertFiles env c profile filename (PkgPath gp) files = Done c' ->
    fromResolved pkgmap c'.
Proof.
  intros Hgp. induction files as [|abspath files IH]; intros Hsub c c' Hc H;
    simpl in H.
  - by injection H as <-.
  - assert (forall a, a ∈ files -> a ∈ CompiledGoFiles gp) as Hsub'
        by (intros a Ha; apply Hsub; by right).
    case_decide; [|by eapply IH].
    apply bind_Done in H as (c1 & H1 & H). apply wrapError_Done in H1.
    eapply IH; [done| |exact H].
    eapply convertProfile_fromResolved; [exact Hgp| |exact Hc|exact H1].
    apply Hsub. by left.
Qed.

(** X13: what [ConvertProfiles] collects for an input comes from the
    resolved packages: each package, with or without functions, is
    stored under its name, that name is the path of a package of
    [pkgmap], and each of its functions is of a compiled file of such a
    package. *)
Theorem convertEntries_fromResolved env pkgmap profiles :
  forall c c',
    fromResolved pkgmap c ->
    convertEntries env c pkgmap profiles = Done c' ->
    fromResolved pkgmap c'.
Proof.
  induction profiles as [|profile profiles IH]; intros c c' Hc H.
  - by injection H as <-.
  - rewrite convertEntries_cons in H.
    destruct (pkgmap !! entryPkgPath profile) as [gp|] eqn:Hgp; [|done].
    apply bind_Done in H as (c1 & H1 & H).
    eapply IH; [|exact H].
    by eapply convertFiles_fromResolved; [exact Hgp| |exact Hc|exact H1].
Qed.

Lemma sampleConverter :
  convertEntries sampleEnv ∅
    (mkPkgmap [{| PkgPath := "example.com/m";
                  CompiledGoFiles := ["/src/m/widget.go"] |}])
    [sampleProfile; strayProfile]
  = Done {[ "example.com/m" :=
              {| PName := "example.com/m";
                 Functions :=
                   convertFunction "/src/m/widget.go" sampleBlocks
                     <$> [ {| name := "Widget.Draw";
                              ext := mkExtent sampleFile 1 37;
                              stmts := [mkExtent sampleFile 30 31] |};
                           {| name := "@3:5";
                              ext := mkExtent sampleFile 45 71;
                              stmts := [mkExtent sampleFile 63 64] |} ] |} ]}.
Proof. reflexivity. Qed.

Lemma convertedAgain :
  convertEntries sampleEnv onceConverted
    (mkPkgmap [{| PkgPath := "example.com/m";
                  CompiledGoFiles := ["/src/m/widget.go"] |}])
    [sampleProfile; strayProfile]
  = Done twiceConverted.
Proof. reflexivity. Qed.

Lemma onceConverted_fromResolved :
  fromResolved
    (mkPkgmap [{| PkgPath := "example.com/m";
                  CompiledGoFiles := ["/src/m/widget.go"] |}])
    onceConverted.
Proof.
  intros k pkg Hk. unfold onceConverted in Hk.
  apply lookup_singleton_Some in Hk as [<- <-].
  split; [done|]. split.
  - by exists "example.com/m", {| PkgPath := "example.com/m";
                               CompiledGoFiles := ["/src/m/widget.go"] |}.
  - intros f Hf.
    exists "example.com/m", {| PkgPath := "example.com/m";
                            CompiledGoFiles := ["/src/m/widget.go"] |}.
    split; [done|]. split; [done|].
    apply list_elem_of_fmap in Hf as (fe & -> & _). simpl. by left.
Qed.

Lemma convertEntries_fromResolved_witness :
  fromResolved
    (mkPkgmap [{| PkgPath := "example.com/m";
                  CompiledGoFiles := ["/src/m/widget.go"] |}])
    twiceConverted.
Proof.
  eapply (convertEntries_fromResolved sampleEnv _ [sampleProfile; strayProfile]
            onceConverted).
  - exact onceConverted_fromResolved.
  - exact convertedAgain.
Defined.

Lemma convertEntries_extends_witness :
  onceConverted !! "example.com/m" =
    Some {| PName := "example.com/m"; Functions := sampleFunctions |}
  /\ twiceConverted !! "example.com/m" =
    Some {| PName := "example.com/m";
            Functions := sampleFunctions ++ sampleFunctions |}
  /\ extends onceConverted twiceConverted.
Proof.
  split; [reflexivity|]. split; [reflexivity|].
  eapply (convertEntries_extends sampleEnv _ [sampleProfile; strayProfile]
            onceConverted).
  exact convertedAgain.
Defined.

(** ** The statement visitor: what a visit adds *)

Section Appends.

Variable fset : File.

Lemma visitList_rebase (l : list Stmt) :
  list_all Stmt (appendsTo fset) l ->
  forall stmts, visitList fset l stmts = rebase stmts (visitList fset l []).
Proof.
  induction 1 as [|x Hx r _ IH]; intros stmts; simpl.
  - by rewrite app_nil_r.
  - rewrite (Hx stmts). unfold rebase at 1.
    destruct (VisitStmt fset x []) as [[x' new1]| |]; cbn [mbind outcome_bind]; try done.
    rewrite (IH (stmts ++ new1)), (IH new1). unfold rebase.
    destruct (visitList fset r []) as [[r' new2]| |]; cbn [mbind outcome_bind]; try done.
    by rewrite app_assoc.
Qed.

Lemma option_all_rebase (s : Stmt) :
  option_all Stmt (appendsTo fset) (Some s) ->
  forall stmts, VisitStmt fset s stmts = rebase stmts (VisitStmt fset s []).
Proof. inversion 1; auto. Qed.

Lemma BlockOf_all_rebase (b : BlockStmtT) :
  BlockOf_all Stmt (appendsTo fset) b ->
  forall stmts,
    visitList fset (List b) stmts = rebase stmts (visitList fset (List b) []).
Proof. destruct 1. by apply visitList_rebase. Qed.

Lemma option_all_block_rebase (b : BlockStmtT) :
  option_all Stmt (appendsTo fset) (Some (BlockStmt b)) ->
  forall stmts,
    visitList fset (List b) stmts = rebase stmts (visitList fset (List b) []).
Proof.
  intros H stmts. apply option_all_rebase with (stmts := stmts) in H.
  rewrite !VisitStmt_BlockStmt in H. unfold rebase in *.
  destruct (visitList fset (List b) stmts) as [[l1 st1]| |],
           (visitList fset (List b) []) as [[l2 st2]| |];
    cbn [mbind outcome_bind] in *; by simplify_eq.
Qed.

Ltac rebase_step :=
  match goal with
  | |- Done _ = Done _ =>
      by rewrite ?app_nil_l, ?app_nil_r, <- ?app_assoc
  | |- Failed _ = Failed _ => reflexivity
  | |- Panicked _ = Panicked _ => reflexivity
  | H : option_all _ _ (Some ?s) |- context [VisitStmt fset ?s ?st] =>
      lazymatch st with [] => fail | _ => rewrite (option_all_rebase s H st) end
  | IH : appendsTo _ ?s |- context [VisitStmt fset ?s ?st] =>
      lazymatch st with [] => fail | _ => rewrite (IH st) end
  | H : BlockOf_all _ _ ?b |- context [visitList fset (List ?b) ?st] =>
      lazymatch st with [] => fail | _ => rewrite (BlockOf_all_rebase b H st) end
  | H : option_all _ _ (Some (BlockStmt ?b))
    |- context [visitList fset (List ?b) ?st] =>
      lazymatch st with
      | [] => fail
      | _ => rewrite (option_all_block_rebase b H st)
      end
  | H : list_all _ _ ?l |- context [visitList fset ?l ?st] =>
      lazymatch st with [] => fail | _ => rewrite (visitList_rebase l H st) end
  | |- context [VisitStmt fset ?s []] =>
      destruct (VisitStmt fset s []) as [[? ?]| |];
      unfold rebase; cbn [mbind outcome_bind]
  | |- context [visitList fset ?l []] =>
      destruct (visitList fset l []) as [[? ?]| |];
      unfold rebase; cbn [mbind outcome_bind]
  | |- context [match ?x with _ => _ end] =>
      is_var x; destruct x; unfold rebase; cbn [mbind outcome_bind]
  end.

Lemma VisitStmt_rebase (s : Stmt) : appendsTo fset s.
Proof.
  induction s; intros stmts; simpl; fold (visitList fset);
    unfold collectExpr, collectToken, rebase; cbn [mbind outcome_bind];
    repeat rebase_step.
Qed.

End Appends.

(** X14: a visit never touches the extents recorded before it, and what it
    records and returns does not depend on them: from any list it gives
    the result it gives from the empty list, appended to that list. *)
Theorem VisitStmt_appends fset (s : Stmt) (stmts : list StmtExtent) :
  VisitStmt fset s stmts =
  '(s', new) ← VisitStmt fset s []; Done (s', stmts ++ new).
Proof. apply VisitStmt_rebase. Qed.

(** ** The statement visitor: when it returns *)

Section Returns.

Variable fset : File.

Lemma bind_returns {A B} (c : outcome A) (k : A -> outcome B) :
  (exists a, c = Done a) -> (forall a, exists b, k a = Done b) ->
  exists b, c ≫= k = Done b.
Proof. intros [a ->] Hk. apply Hk. Qed.

Lemma visitList_returns (l : list Stmt) :
  list_all Stmt (returnsOn fset) l ->
  allElseShaped l -> forall stmts, exists r, visitList fset l stmts = Done r.
Proof.
  induction 1 as [|x Hx r _ IH]; intros Hl stmts; simpl; [eauto|].
  destruct Hl as [Hsx Hsr].
  apply bind_returns; [by apply Hx|]. intros [x' stmts1].
  apply bind_returns; [by apply IH|]. intros [r' stmts2]. eauto.
Qed.

Lemma option_all_returns_shaped (s : Stmt) stmts :
  option_all Stmt (returnsOn fset) (Some s) -> elseShaped s ->
  exists r, VisitStmt fset s stmts = Done r.
Proof. inversion 1; auto. Qed.

Lemma BlockOf_all_returns_shaped (b : BlockStmtT) stmts :
  BlockOf_all Stmt (returnsOn fset) b -> allElseShaped (List b) ->
  exists r, visitList fset (List b) stmts = Done r.
Proof. destruct 1. intros Hl. by apply visitList_returns. Qed.

Lemma option_all_block_returns_shaped (b : BlockStmtT) stmts :
  option_all Stmt (returnsOn fset) (Some (BlockStmt b)) -> elseShaped (BlockStmt b) ->
  exists r, visitList fset (List b) stmts = Done r.
Proof.
  intros H Hs. destruct (option_all_returns_shaped _ stmts H Hs) as [r Hr].
  rewrite VisitStmt_BlockStmt in Hr.
  apply bind_Done in Hr as (r' & -> & _). eauto.
Qed.

Ltac shaped_step :=
  lazymatch goal with
  | |- exists r, Done _ = Done r => eexists; reflexivity
  | |- exists r, Panicked _ = Done r => simpl in *; intuition discriminate
  | |- exists r, _ ≫= _ = Done r => apply bind_returns; [|intros ?]
  | |- exists r, visitList _ (List ?b) _ = Done r =>
      first [ apply BlockOf_all_returns_shaped; [assumption|intuition]
            | apply option_all_block_returns_shaped; [assumption|intuition] ]
  | |- exists r, visitList _ _ _ = Done r =>
      apply visitList_returns; [assumption|intuition]
  | |- exists r, VisitStmt _ _ _ = Done r =>
      first [ apply option_all_returns_shaped; [assumption|intuition]
            | match goal with IH : returnsOn _ _ |- _ => apply IH; intuition end ]
  | |- exists r, match ?x with _ => _ end = Done r => destruct x
  | |- exists r, (let '(_, _) := ?x in _) = Done r => destruct x
  end.

Lemma VisitStmt_returnsOn (s : Stmt) : returnsOn fset s.
Proof.
  induction s; intros Hs stmts;
    simpl in Hs; fold allElseShaped in Hs;
    simpl; fold (visitList fset);
    repeat shaped_step.
Qed.

Lemma visitList_shaped (l : list Stmt) :
  list_all Stmt (shapedOn fset) l ->
  forall stmts r, visitList fset l stmts = Done r -> allElseShaped l.
Proof.
  induction 1 as [|x Hx l _ IH]; intros stmts r H; simpl in *; [done|].
  apply bind_Done in H as ([x' stmts1] & Hx' & H).
  apply bind_Done in H as ([l' stmts2] & Hl' & _). eauto.
Qed.

Lemma option_all_shaped (s : Stmt) stmts r :
  option_all Stmt (shapedOn fset) (Some s) ->
  VisitStmt fset s stmts = Done r -> elseShaped s.
Proof. inversion 1; eauto. Qed.

Lemma BlockOf_all_shaped (b : BlockStmtT) stmts r :
  BlockOf_all Stmt (shapedOn fset) b ->
  visitList fset (List b) stmts = Done r -> allElseShaped (List b).
Proof. destruct 1. intros H. by eapply visitList_shaped. Qed.

Lemma option_all_block_shaped (b : BlockStmtT) stmts r :
  option_all Stmt (shapedOn fset) (Some (BlockStmt b)) ->
  visitList fset (List b) stmts = Done r -> elseShaped (BlockStmt b).
Proof.
  intros H Hv. destruct r as [l' stmts'].
  eapply (option_all_shaped _ stmts); [exact H|].
  rewrite VisitStmt_BlockStmt, Hv. reflexivity.
Qed.

Ltac invert_visit :=
  repeat match goal with
         | H : _ ≫= _ = Done _ |- _ => apply bind_Done in H as (? & ? & H)
         | H : (let '(_, _) := ?x in _) = Done _ |- _ => destruct x
         | H : match ?x with _ => _ end = Done _ |- _ =>
             destruct x; try discriminate H
         | H : Done _ = Done _ |- _ => clear H
         end.

Lemma VisitStmt_shapedOn (s : Stmt) : shapedOn fset s.
Proof.
  induction s; intros stmts r Hv;
    simpl; fold allElseShaped; try exact I;
    simpl in Hv; fold (visitList fset) in Hv;
    invert_visit;
    repeat match goal with |- _ /\ _ => split end;
    eauto using option_all_shaped, BlockOf_all_shaped, option_all_block_shaped,
      visitList_shaped.
Qed.

End Returns.

(** X15: [VisitStmt] returns exactly on the trees in which every else
    branch it reaches is an if statement or a block; on every other
    tree it panics with "unexpected node type in if".  It has no error
    result. *)
Theorem VisitStmt_returns_or_panics fset (s : Stmt) (stmts : list StmtExtent) :
  (elseShaped s <-> exists r, VisitStmt fset s stmts = Done r)
  /\ (~ elseShaped s <->
      VisitStmt fset s stmts = Panicked "unexpected node type in if").
Proof.
  assert (elseShaped s <-> exists r, VisitStmt fset s stmts = Done r) as Hiff.
  { split.
    - intros Hs. by apply VisitStmt_returnsOn.
    - intros [r Hr]. by eapply VisitStmt_shapedOn. }
  split; [done|]. rewrite Hiff.
  pose proof (VisitStmt_returnsOrPanics fset s stmts) as Hout.
  destruct (VisitStmt fset s stmts) as [r|e|msg]; simpl in Hout.
  - split; [intros []; eauto|done].
  - done.
  - subst msg. split; [done|]. by intros _ [r ?].
Qed.

(** ** The statement visitor: the rewritten tree *)

Section Revisit.

Variable fset : File.

Lemma visitList_revisits (l : list Stmt) :
  list_all Stmt (revisits fset) l ->
  forall stmts l' stmts',
    visitList fset l stmts = Done (l', stmts') ->
    exists l'', visitList fset l' stmts = Done (l'', stmts').
Proof.
  induction 1 as [|x Hx l _ IH]; intros stmts l' stmts' H; simpl in H.
  - injection H as <- <-. by exists [].
  - apply bind_Done in H as ([x' stmts1] & Hx' & H).
    apply bind_Done in H as ([r' stmts2] & Hr' & H). injection H as <- <-.
    destruct (Hx _ _ _ Hx') as [x'' Hx''].
    destruct (IH _ _ _ Hr') as [r'' Hr''].
    exists (x'' :: r''). simpl. fold (visitList fset).
    rewrite Hx''. simpl. by rewrite Hr''.
Qed.

Lemma option_all_revisits (s : Stmt) stmts s' stmts' :
  option_all Stmt (revisits fset) (Some s) ->
  VisitStmt fset s stmts = Done (s', stmts') ->
  exists s'', VisitStmt fset s' stmts = Done (s'', stmts').
Proof. inversion 1; eauto. Qed.

Lemma BlockOf_all_revisits (b : BlockStmtT) stmts l' stmts' :
  BlockOf_all Stmt (revisits fset) b ->
  visitList fset (List b) stmts = Done (l', stmts') ->
  exists l'', visitList fset l' stmts = Done (l'', stmts').
Proof. destruct 1. intros H. by eapply visitList_revisits. Qed.

Lemma option_all_block_revisits (b : BlockStmtT) stmts l' stmts' :
  option_all Stmt (revisits fset) (Some (BlockStmt b)) ->
  visitList fset (List b) stmts = Done (l', stmts') ->
  exists l'', visitList fset l' stmts = Done (l'', stmts').
Proof.
  intros H Hv.
  destruct (option_all_revisits (BlockStmt b) stmts
              (BlockStmt {| Lbrace := Lbrace b; List := l'; Rbrace := Rbrace b |})
              stmts' H) as [s'' Hs''].
  { by rewrite VisitStmt_BlockStmt, Hv. }
  rewrite VisitStmt_BlockStmt in Hs''. cbn [Lbrace List Rbrace] in Hs''.
  apply bind_Done in Hs'' as ([l'' st] & Hl'' & Hs''). injection Hs'' as _ <-.
  eauto.
Qed.

Ltac invert_first_visit :=
  repeat match goal with
         | H : _ ≫= _ = Done _ |- _ => apply bind_Done in H as (? & ? & H)
         | H : (let '(_, _) := ?x in _) = Done _ |- _ => destruct x
         | H : match ?x with _ => _ end = Done _ |- _ =>
             destruct x; try discriminate H
         | H : Done _ = Done _ |- _ => injection H; clear H; intros; subst
         end.

Ltac second_visit :=
  repeat match goal with
         | IH : option_all _ _ (Some ?s),
           H : VisitStmt fset ?s ?st = Done (_, _) |- _ =>
             destruct (option_all_revisits _ _ _ _ IH H) as [? ?]; clear H
         | IH : revisits _ ?s, H : VisitStmt fset ?s ?st = Done (_, _) |- _ =>
             destruct (IH _ _ _ H) as [? ?]; clear H
         | IH : BlockOf_all _ _ ?b,
           H : visitList fset (List ?b) ?st = Done (_, _) |- _ =>
             destruct (BlockOf_all_revisits _ _ _ _ IH H) as [? ?]; clear H
         | IH : option_all _ _ (Some (BlockStmt ?b)),
           H : visitList fset (List ?b) ?st = Done (_, _) |- _ =>
             destruct (option_all_block_revisits _ _ _ _ IH H) as [? ?]; clear H
         | IH : list_all _ _ ?l,
           H : visitList fset ?l ?st = Done (_, _) |- _ =>
             destruct (visitList_revisits _ IH _ _ _ H) as [? ?]; clear H
         end.

Ltac replay :=
  simpl; fold (visitList fset);
  repeat match goal with
         | H : ?c = Done _ |- context [?c] =>
             rewrite H; simpl; fold (visitList fset)
         end;
  try (eexists; reflexivity).

Lemma VisitStmt_revisits (s : Stmt) : revisits fset s.
Proof.
  induction s; intros stmts s' stmts' Hv;
    simpl in Hv; fold (visitList fset) in Hv;
    invert_first_visit; second_visit; replay.
Qed.

End Revisit.

(** X16: the rewriting of the else branches does not change what a visit
    records: a second visit of the tree that a first visit left behind
    returns as well, with the same extents. *)
Theorem second_visit_records_the_same fset (s : Stmt) stmts s' stmts' :
  VisitStmt fset s stmts = Done (s', stmts') ->
  exists s'', VisitStmt fset s' stmts = Done (s'', stmts').
Proof. apply VisitStmt_revisits. Qed.

Lemma second_visit_records_the_same_witness :
  exists s'',
    VisitStmt sampleFile (fst (visited (VisitStmt sampleFile sampleIf []))) []
    = Done (s'', snd (visited (VisitStmt sampleFile sampleIf []))).
Proof.
  apply (second_visit_records_the_same sampleFile sampleIf).
  vm_compute. reflexivity.
Defined.

Lemma rewriteElse_if (els : Stmt) :
  isIfStmt els = true ->
  rewriteElse els =
  Done (BlockStmt {| Lbrace := Pos els - backupToElse;
                     List := [els];
                     Rbrace := End els |}).
Proof. by destruct els. Qed.

(** X17: the tree itself is not left as it was: the block made for an
    else-if branch takes the end of that branch as the position of its
    closing brace, so the if statement ends one position later than
    before the visit; an else branch that is a block keeps its end. *)
Theorem else_rewriting_moves_End fset if_ init cond body els stmts s' stmts' :
  VisitStmt fset (IfStmt if_ init cond body (Some els)) stmts = Done (s', stmts') ->
  (isIfStmt els = true -> End els <> NoPos ->
   End s' = End (IfStmt if_ init cond body (Some els)) + 1)
  /\ (forall b, els = BlockStmt b -> Rbrace b <> NoPos ->
      End s' = End (IfStmt if_ init cond body (Some els))).
Proof.
  rewrite VisitStmt_else. intros H.
  apply bind_Done in H as ([h stmts1] & Hhead & H).
  apply bind_Done in H as (els1 & Hrw & H).
  apply bind_Done in H as ([els2 stmts2] & Hels & H).
  injection H as <- <-.
  assert (exists init' body', h = IfStmt if_ init' cond body' None)
    as (init' & body' & ->).
  { revert Hhead. simpl. fold (visitList fset). intros Hhead.
    apply bind_Done in Hhead as ([init' ?] & _ & Hhead).
    apply bind_Done in Hhead as ([body' ?] & _ & Hhead).
    injection Hhead as <- _. eauto. }
  split.
  - intros Hif Hend. rewrite (rewriteElse_if els Hif) in Hrw. injection Hrw as <-.
    destruct (visitList_Done_Lbrace _ _ _ _ _ _ _ _ eq_refl Hels) as [l' ->].
    simpl. simpl in Hend.
    by destruct (Z.eqb_spec (Stmt_End els) NoPos).
  - intros b -> Hrb. injection Hrw as <-.
    destruct (visitList_Done_Lbrace _ _ _ _ _ _ _ _ eq_refl Hels) as [l' ->].
    simpl. by destruct (Z.eqb_spec (Rbrace b) NoPos).
Qed.

Lemma else_rewriting_moves_End_witness :
  (isIfStmt sampleElseIf = true -> End sampleElseIf <> NoPos ->
   End (fst (visited (VisitStmt sampleFile sampleIf []))) = End sampleIf + 1)
  /\ (forall b, sampleElseIf = BlockStmt b -> Rbrace b <> NoPos ->
      End (fst (visited (VisitStmt sampleFile sampleIf []))) = End sampleIf).
Proof.
  apply (else_rewriting_moves_End sampleFile 20 None (Some (OtherExpr 23 28))
           {| Lbrace := 29; List := [ReturnStmt 31 []]; Rbrace := 38 |}
           sampleElseIf [] _ (snd (visited (VisitStmt sampleFile sampleIf [])))).
  vm_compute. reflexivity.
Defined.

(** ** The function visitor *)

Lemma walk_app fset (before after : list AstNode) :
  forall funcs,
    walk fset (before ++ after) funcs =
    funcs ← walk fset before funcs; walk fset after funcs.
Proof.
  induction before as [|node before IH]; intros funcs; [done|].
  simpl. destruct (Visit fset node funcs) as [funcs1| |]; simpl; auto.
Qed.

(** X18: a method declaration with an empty receiver list makes [findFuncs]
    panic on [f.Recv.List[0]], with or without body; the functions
    found before it are lost. *)
Theorem findFuncs_empty_receiver env name pf before d after funcs :
  ParseFile env name = Done pf ->
  nodes_of pf = before ++ NFuncDecl d :: after ->
  Recv d = Some [] ->
  walk (fset_of pf) before [] = Done funcs ->
  findFuncs env name = Panicked indexOutOfRange.
Proof.
  intros Hparse Hnodes Hrecv Hbefore. unfold findFuncs.
  rewrite Hparse. cbn [mbind outcome_bind].
  rewrite Hnodes, walk_app, Hbefore. cbn [mbind outcome_bind].
  simpl. unfold Visit, functionName. by rewrite Hrecv.
Qed.

Lemma findFuncs_empty_receiver_witness :
  findFuncs oddEnv "/src/m/widget.go" = Panicked indexOutOfRange.
Proof.
  by apply (findFuncs_empty_receiver oddEnv "/src/m/widget.go" oddParsed
              [NFuncDecl sampleMethod] noReceiverDecl []
              [{| name := "Widget.Draw"; ext := mkExtent sampleFile 1 37;
                  stmts := [mkExtent sampleFile 30 31] |}]).
Defined.

Lemma Visit_ext fset (node : AstNode) funcs funcs' :
  Visit fset node funcs = Done funcs' ->
  ext <$> funcs' =
  (ext <$> funcs)
  ++ if decide (hasBody node) then [mkExtent fset (Pos node) (End node)] else [].
Proof.
  intros H. unfold Visit in H.
  apply bind_Done in H as ([body nm] & Hnode & H).
  assert (body = nodeBody node) as ->.
  { destruct node as [n|n|]; simpl in *; simplify_eq; try done.
    apply bind_Done in Hnode as (? & _ & ?). by simplify_eq. }
  destruct (decide (hasBody node)) as [[body Hbody]|Hno].
  - rewrite Hbody in H.
    apply bind_Done in H as ([? stmts0] & _ & H). injection H as <-.
    by rewrite fmap_app.
  - assert (nodeBody node = None) as Hnone.
    { destruct (nodeBody node) eqn:Hb; [|done].
      exfalso. apply Hno. unfold hasBody. rewrite Hb. eauto. }
    rewrite Hnone in H. injection H as <-. by rewrite app_nil_r.
Qed.

Lemma walk_ext fset (nodes : list AstNode) :
  forall funcs funcs',
    walk fset nodes funcs = Done funcs' ->
    ext <$> funcs' =
    (ext <$> funcs)
    ++ ((fun node => mkExtent fset (Pos node) (End node))
          <$> filter hasBody nodes).
Proof.
  induction nodes as [|node nodes IH]; intros funcs funcs' H; simpl in H.
  - injection H as <-. by rewrite app_nil_r.
  - apply bind_Done in H as (funcs1 & Hv & H).
    rewrite (IH _ _ H), (Visit_ext _ _ _ _ Hv), filter_cons.
    case_decide; by rewrite <- app_assoc.
Qed.

(** X19: [findFuncs] returns a flat list with one extent for each function
    literal and each function declaration with a body, in the order of
    the walk, from the first to the last position of the node;
    declarations without body are left out. *)
Theorem findFuncs_one_extent_per_function env name pf funcs :
  ParseFile env name = Done pf ->
  findFuncs env name = Done funcs ->
  ext <$> funcs =
  (fun node => mkExtent (fset_of pf) (Pos node) (End node))
    <$> filter hasBody (nodes_of pf).
Proof.
  intros Hparse H. unfold findFuncs in H. rewrite Hparse in H.
  cbn [mbind outcome_bind] in H. by rewrite (walk_ext _ _ _ _ H).
Qed.

Lemma findFuncs_one_extent_per_function_witness :
  ext <$> [ {| name := "Widget.Draw"; ext := mkExtent sampleFile 1 37;
               stmts := [mkExtent sampleFile 30 31] |};
            {| name := "@3:5"; ext := mkExtent sampleFile 45 71;
               stmts := [mkExtent sampleFile 63 64] |} ] =
  (fun node => mkExtent (fset_of sampleParsed) (Pos node) (End node))
    <$> filter hasBody (nodes_of sampleParsed).
Proof.
  by apply (findFuncs_one_extent_per_function sampleEnv "/src/m/widget.go").
Defined.

(** ** From the syntax tree to the result *)

Lemma convertFunction_inside absFilePath blocks (fe : FuncExtent) :
  contained fe -> statementsInside (convertFunction absFilePath blocks fe).
Proof.
  unfold contained, statementsInside. simpl. intros H.
  apply Forall_fmap. eapply Forall_impl; [exact H|]. by intros se.
Qed.

Lemma convertProfile_outputInside env c p absFilePath pkgPath c' :
  parsesWell env -> outputInside c ->
  convertProfile env c p absFilePath pkgPath = Done c' ->
  outputInside c'.
Proof.
  intros Hwell Hc H. unfold convertProfile in H.
  apply bind_Done in H as (extents & Hfind & H). injection H as <-.
  assert (Forall contained extents) as Hext.
  { unfold findFuncs in Hfind.
    apply bind_Done in Hfind as (pf & Hparse & Hwalk).
    destruct (Hwell _ _ Hparse) as [Hbase Hnodes].
    by eapply walk_contained. }
  intros k pkg f Hk Hf. destruct (decide (pkgPath = k)) as [->|Hne].
  - rewrite lookup_insert_eq in Hk. injection Hk as <-. simpl in Hf.
    apply elem_of_app in Hf as [Hf|Hf].
    + destruct (c !! k) as [pkg0|] eqn:Hpkg0; simpl in Hf.
      * by eapply Hc.
      * by apply elem_of_nil in Hf.
    + apply list_elem_of_fmap in Hf as (fe & -> & Hfe).
      apply convertFunction_inside. by eapply Forall_forall in Hext.
  - rewrite lookup_insert_ne in Hk by done. by eapply Hc.
Qed.

Lemma convertFiles_outputInside env profile filename pkgPath files :
  parsesWell env ->
  forall c c',
    outputInside c ->
    convertFiles env c profile filename pkgPath files = Done c' ->
    outputInside c'.
Proof.
  intros Hwell. induction files as [|abspath files IH]; intros c c' Hc H;
    simpl in H.
  - by injection H as <-.
  - case_decide; [|by eapply IH].
    apply bind_Done in H as (c1 & H1 & H). apply wrapError_Done in H1.
    eapply IH; [|exact H]. by eapply convertProfile_outputInside.
Qed.

(** X20: when the parser delivers well-nested files, every statement that
    [ConvertProfiles] collects for an input starts and ends inside its
    function: [Start] is at least the function's [Start] and [End] at
    most its [End]. *)
Theorem convertEntries_outputInside env pkgmap profiles :
  parsesWell env ->
  forall c c',
    outputInside c ->
    convertEntries env c pkgmap profiles = Done c' ->
    outputInside c'.
Proof.
  intros Hwell. induction profiles as [|profile profiles IH]; intros c c' Hc H.
  - by injection H as <-.
  - rewrite convertEntries_cons in H.
    destruct (pkgmap !! entryPkgPath profile) as [gp|]; [|done].
    apply bind_Done in H as (c1 & H1 & H).
    eapply IH; [|exact H]. by eapply convertFiles_outputInside.
Qed.

Lemma sampleEnv_parsesWell : parsesWell sampleEnv.
Proof.
  intros name pf H. simpl in H. case_bool_decide; [|done]. injection H as <-.
  split; [reflexivity|]. repeat constructor; vm_compute; intuition discriminate.
Qed.

Lemma convertEntries_outputInside_witness :
  outputInside
    {[ "example.com/m" :=
         {| PName := "example.com/m";
            Functions :=
              convertFunction "/src/m/widget.go" sampleBlocks
                <$> [ {| name := "Widget.Draw";
                         ext := mkExtent sampleFile 1 37;
                         stmts := [mkExtent sampleFile 30 31] |};
                      {| name := "@3:5";
                         ext := mkExtent sampleFile 45 71;
                         stmts := [mkExtent sampleFile 63 64] |} ] |} ]}.
Proof.
  eapply (convertEntries_outputInside sampleEnv _ [sampleProfile; strayProfile]
            sampleEnv_parsesWell ∅).
  - intros k pkg f Hk. by rewrite lookup_empty in Hk.
  - exact sampleConverter.
Defined.

(** ** How a profile entry is keyed *)

Lemma substring_prefix (a b : string) :
  String.substring 0 (String.length a) (a +:+ b) = a.
Proof.
  induction a as [|c a IH].
  - cbn. by destruct b.
  - change (String c (String.substring 0 (String.length a) (a +:+ b)) = String c a).
    by rewrite IH.
Qed.

Lemma substring_suffix (a b : string) :
  String.substring (String.length a) (String.length b) (a +:+ b) = b.
Proof.
  induction a as [|c a IH].
  - cbn. rewrite <- (substring_prefix b EmptyString) at 3.
    f_equal. clear. induction b as [|c b IH]; [done|].
    change (String c b = String c (b +:+ EmptyString)). by rewrite <- IH.
  - exact IH.
Qed.

Lemma length_append_slash (a : string) :
  String.length (a +:+ "/") = S (String.length a).
Proof.
  induction a as [|c a IH]; [done|].
  change (S (String.length (a +:+ "/")) = S (S (String.length a))).
  by rewrite IH.
Qed.

Lemma TrimSuffix_slash (pkg : string) : TrimSuffix (pkg +:+ "/") "/" = pkg.
Proof.
  unfold TrimSuffix. rewrite length_append_slash.
  change (String.length "/") with 1%nat.
  replace (S (String.length pkg) - 1)%nat with (String.length pkg) by lia.
  change 1%nat with (String.length "/") at 2.
  rewrite substring_suffix, substring_prefix. reflexivity.
Qed.

Lemma path_Split_noSlash (file : string) :
  noSlash file -> path_Split file = (EmptyString, file).
Proof.
  induction file as [|c file IH]; [done|]. intros [Hc Hfile].
  simpl. rewrite IH by done. simpl. by rewrite Hc.
Qed.

Lemma append_slash_nonempty (pkg : string) : pkg +:+ "/" <> EmptyString.
Proof. by destruct pkg. Qed.

Lemma path_Split_join (pkg file : string) :
  noSlash file -> path_Split (pkg +:+ "/" +:+ file) = (pkg +:+ "/", file).
Proof.
  intros Hfile. induction pkg as [|c pkg IH].
  - change (path_Split (String "/" file) = (String "/" EmptyString, file)).
    simpl. by rewrite path_Split_noSlash.
  - change (path_Split (String c (pkg +:+ "/" +:+ file))
            = (String c (pkg +:+ "/"), file)).
    simpl. rewrite IH.
    by rewrite bool_decide_eq_false_2 by apply append_slash_nonempty.
Qed.

Lemma stripTrailingSlashes_noSlash (file : string) :
  noSlash file -> stripTrailingSlashes file = file.
Proof.
  induction file as [|c file IH]; [done|]. intros [Hc Hfile].
  simpl. rewrite IH by done. rewrite Hc. by rewrite andb_false_r.
Qed.

Lemma stripTrailingSlashes_join (dir file : string) :
  noSlash file -> file <> EmptyString ->
  stripTrailingSlashes (dir +:+ "/" +:+ file) = dir +:+ "/" +:+ file.
Proof.
  intros Hfile Hne. induction dir as [|c dir IH].
  - change (stripTrailingSlashes (String "/" file) = String "/" file).
    simpl. rewrite stripTrailingSlashes_noSlash by done.
    by rewrite bool_decide_eq_false_2.
  - change (stripTrailingSlashes (String c (dir +:+ "/" +:+ file))
            = String c (dir +:+ "/" +:+ file)).
    simpl. rewrite IH.
    rewrite bool_decide_eq_false_2; [done|]. by destruct dir.
Qed.

(** X21: an entry named [pkg/file] is looked up under the package path
    [pkg] and matches the compiled files whose last element is [file];
    an entry whose name has no slash is looked up under the empty
    package path. *)
Theorem entry_keys (profile : Profile) :
  (forall pkg file dir,
     FileName profile = pkg +:+ "/" +:+ file ->
     noSlash file -> file <> EmptyString ->
     entryPkgPath profile = pkg
     /\ entryFileName profile = file
     /\ filepath_Base (dir +:+ "/" +:+ file) = entryFileName profile)
  /\ (noSlash (FileName profile) ->
      entryPkgPath profile = EmptyString
      /\ entryFileName profile = FileName profile).
Proof.
  unfold entryPkgPath, entryFileName. split.
  - intros pkg file dir -> Hfile Hne.
    rewrite path_Split_join by done. simpl.
    rewrite TrimSuffix_slash. repeat split.
    unfold filepath_Base.
    rewrite bool_decide_eq_false_2 by (by destruct dir).
    rewrite stripTrailingSlashes_join, path_Split_join by done. simpl.
    by rewrite bool_decide_eq_false_2.
  - intros H. by rewrite path_Split_noSlash.
Qed.

Lemma entry_keys_witness :
  (entryPkgPath sampleProfile = "example.com/m"
   /\ entryFileName sampleProfile = "widget.go"
   /\ filepath_Base ("/src/m" +:+ "/" +:+ "widget.go")
      = entryFileName sampleProfile)
  /\ (entryPkgPath bareProfile = EmptyString
      /\ entryFileName bareProfile = FileName bareProfile).
Proof.
  split.
  - apply (proj1 (entry_keys sampleProfile) "example.com/m" "widget.go" "/src/m");
      [reflexivity | vm_compute; intuition discriminate | discriminate].
  - apply (proj2 (entry_keys bareProfile)). vm_compute. intuition discriminate.
Defined.

(** ** The spans of keyword statements *)

Lemma collectToken_span fset pos (text : string) stmts :
  InFile fset pos -> InFile fset (pos + len text) ->
  exists se,
    collectToken fset pos text stmts = stmts ++ [se]
    /\ startOffset se = pos - base fset
    /\ endOffset se = startOffset se + len text.
Proof.
  intros Hp Hq. eexists. split; [reflexivity|]. simpl.
  rewrite !Position_of_Offset by done. lia.
Qed.

(** X22: a go, defer or return statement records one extent, which
    starts at its keyword and has the length of the keyword (2, 5 and 6
    bytes); a branch statement records one byte at its keyword,
    whichever of break, continue, goto and fallthrough it is, after the
    extent of its label when it has one. *)
Theorem keyword_spans fset stmts :
  (forall go call,
     InFile fset go -> InFile fset (go + 2) ->
     exists se,
       VisitStmt fset (GoStmt go call) stmts = Done (GoStmt go call, stmts ++ [se])
       /\ startOffset se = go - base fset /\ endOffset se = startOffset se + 2)
  /\ (forall defer call,
        InFile fset defer -> InFile fset (defer + 5) ->
        exists se,
          VisitStmt fset (DeferStmt defer call) stmts
          = Done (DeferStmt defer call, stmts ++ [se])
          /\ startOffset se = defer - base fset
          /\ endOffset se = startOffset se + 5)
  /\ (forall ret results,
        InFile fset ret -> InFile fset (ret + 6) ->
        exists se,
          VisitStmt fset (ReturnStmt ret results) stmts
          = Done (ReturnStmt ret results, stmts ++ [se])
          /\ startOffset se = ret - base fset
          /\ endOffset se = startOffset se + 6)
  /\ (forall tokpos tok label,
        InFile fset tokpos -> InFile fset (tokpos + 1) ->
        exists se,
          VisitStmt fset (BranchStmt tokpos tok label) stmts
          = Done (BranchStmt tokpos tok label,
                  (stmts ++ match label with
                            | Some l => [mkExtent fset (Pos l) (End l)]
                            | None => []
                            end) ++ [se])
          /\ startOffset se = tokpos - base fset
          /\ endOffset se = startOffset se + 1).
Proof.
  repeat split.
  - intros go call Hp Hq.
    destruct (collectToken_span fset go "go" stmts Hp Hq) as (se & Hse & ?).
    exists se. simpl. by rewrite Hse.
  - intros defer call Hp Hq.
    destruct (collectToken_span fset defer "defer" stmts Hp Hq) as (se & Hse & ?).
    exists se. simpl. by rewrite Hse.
  - intros ret results Hp Hq.
    destruct (collectToken_span fset ret "return" stmts Hp Hq) as (se & Hse & ?).
    exists se. simpl. by rewrite Hse.
  - intros tokpos tok [l|] Hp Hq.
    + destruct (collectToken_span fset tokpos "g"
                  (stmts ++ [mkExtent fset (Pos l) (End l)]) Hp Hq)
        as (se & Hse & ?).
      exists se. simpl. unfold collectExpr. by rewrite Hse.
    + destruct (collectToken_span fset tokpos "g" stmts Hp Hq) as (se & Hse & ?).
      exists se. simpl. by rewrite Hse, app_nil_r.
Qed.

Lemma keyword_spans_witness :
  exists se,
    VisitStmt sampleFile (ReturnStmt 31 []) [] = Done (ReturnStmt 31 [], [] ++ [se])
    /\ startOffset se = 31 - base sampleFile
    /\ endOffset se = startOffset se + 6.
Proof.
  destruct (keyword_spans sampleFile []) as (_ & _ & Hreturn & _).
  apply Hreturn; vm_compute; intuition discriminate.
Defined.

(** ** The representative extent of a statement with an init *)

Lemma if_head_any_condition fset if_ init cond cond' body stmts h stmts' :
  VisitStmt fset (IfStmt if_ (Some init) cond body None) stmts = Done (h, stmts') ->
  exists h',
    VisitStmt fset (IfStmt if_ (Some init) cond' body None) stmts
    = Done (h', stmts').
Proof.
  simpl. fold (visitList fset).
  destruct (VisitStmt fset init stmts) as [[init' stmts1]| |]; simpl; try done.
  destruct (visitList fset (List body) stmts1) as [[body' stmts2]| |];
    simpl; try done.
  intros [= _ <-]. eauto.
Qed.

(** X23: with an init statement, the condition of an if statement and
    the condition and post statement of a for statement are not
    recorded: the extents are those of the same statement with any
    other condition (and post statement). *)
Theorem init_hides_condition fset stmts :
  (forall if_ init cond cond' body els s' stmts',
     VisitStmt fset (IfStmt if_ (Some init) cond body els) stmts = Done (s', stmts') ->
     exists s'',
       VisitStmt fset (IfStmt if_ (Some init) cond' body els) stmts
       = Done (s'', stmts'))
  /\ (forall for_ init cond cond' post post' body s' stmts',
        VisitStmt fset (ForStmt for_ (Some init) cond post body) stmts
        = Done (s', stmts') ->
        exists s'',
          VisitStmt fset (ForStmt for_ (Some init) cond' post' body) stmts
          = Done (s'', stmts')).
Proof.
  split.
  - intros if_ init cond cond' body [els|] s' stmts' H.
    + rewrite VisitStmt_else in H. rewrite VisitStmt_else.
      apply bind_Done in H as ([h stmts1] & Hhead & H).
      apply bind_Done in H as (els1 & Hrw & H).
      apply bind_Done in H as ([els2 stmts2] & Hels & H).
      injection H as <- <-.
      destruct (if_head_any_condition _ _ _ _ cond' _ _ _ _ Hhead) as [h' ->].
      cbn [mbind outcome_bind]. rewrite Hrw. cbn [mbind outcome_bind].
      rewrite Hels. cbn [mbind outcome_bind]. eauto.
    + by eapply if_head_any_condition.
  - intros for_ init cond cond' post post' body s' stmts'.
    simpl. fold (visitList fset).
    destruct (VisitStmt fset init stmts) as [[init' stmts1]| |]; simpl; try done.
    destruct (visitList fset (List body) stmts1) as [[body' stmts2]| |];
      simpl; try done.
    intros [= _ <-]. eauto.
Qed.

Lemma init_hides_condition_witness :
  exists s'',
    VisitStmt sampleFile
      (IfStmt 20 (Some sampleAssign) None
         {| Lbrace := 29; List := [ReturnStmt 31 []]; Rbrace := 38 |} None) []
    = Done (s'', [mkExtent sampleFile 63 64; mkExtent sampleFile 31 37]).
Proof.
  destruct (init_hides_condition sampleFile []) as [Hif _].
  apply (Hif 20 sampleAssign (Some (OtherExpr 23 28)) None
           {| Lbrace := 29; List := [ReturnStmt 31 []]; Rbrace := 38 |} None
           (IfStmt 20 (Some sampleAssign) (Some (OtherExpr 23 28))
              {| Lbrace := 29; List := [ReturnStmt 31 []]; Rbrace := 38 |} None)).
  vm_compute. reflexivity.
Defined.

(** ** The order of [range] over the packages of an input *)

(** X25: however the runtime ranges over the converter of an input, the
    packages it hands to [AddPackage] have pairwise different names,
    and each is the package stored under its name: a package is added
    once for an input, with all the functions collected for it. *)
Theorem range_packages_distinct env pkgmap profiles c order (i : nat) :
  validOrder order ->
  convertEntries env ∅ pkgmap profiles = Done c ->
  NoDup (PName <$> order i c)
  /\ (forall p, p ∈ order i c -> c !! PName p = Some p).
Proof.
  intros Horder Hc.
  assert (namesAreKeys c) as Hkeys.
  { eapply convertEntries_namesAreKeys; [|exact Hc].
    intros k pkg Hk. by rewrite lookup_empty in Hk. }
  split.
  - rewrite (Horder i c). by apply namesAreKeys_NoDup.
  - intros p Hp. rewrite (Horder i c) in Hp.
    apply list_elem_of_fmap in Hp as ([k pkg] & -> & Hp).
    apply elem_of_map_to_list in Hp. simpl.
    by rewrite (Hkeys k pkg Hp).
Qed.

Lemma range_packages_distinct_witness :
  NoDup (PName <$> descending 0 pairConverted)
  /\ (forall p, p ∈ descending 0 pairConverted ->
      pairConverted !! PName p = Some p).
Proof.
  apply (range_packages_distinct pairEnv (mkPkgmap pairPackages)
           [sampleProfile; libProfile]).
  - exact descending_valid.
  - exact pairConverter.
Defined.

Lemma convertFiles_keys env profile filename pkgPath files c c' k :
  convertFiles env c profile filename pkgPath files = Done c' ->
  is_Some (c' !! k) -> is_Some (c !! k) \/ k = pkgPath.
Proof.
  intros H Hk. destruct (decide (k = pkgPath)) as [->|Hne]; [by right|left].
  rewrite convertFiles_filter in H.
  apply convertFiles_all_match in H as (found & _ & Hother & _).
  - by rewrite <- Hother.
  - apply Forall_forall. by intros abspath [? _]%list_elem_of_filter.
Qed.

Lemma convertEntries_keys env pkgmap profiles :
  forall c c' k,
    convertEntries env c pkgmap profiles = Done c' ->
    is_Some (c' !! k) ->
    is_Some (c !! k)
    \/ exists profile gp,
         profile ∈ profiles
         /\ pkgmap !! entryPkgPath profile = Some gp /\ PkgPath gp = k.
Proof.
  induction profiles as [|profile profiles IH]; intros c c' k H Hk.
  - injection H as <-. by left.
  - rewrite convertEntries_cons in H.
    destruct (pkgmap !! entryPkgPath profile) as [gp|] eqn:Hgp; [|done].
    apply bind_Done in H as (c1 & H1 & H).
    destruct (IH _ _ _ H Hk) as [Hk1|(p & gp' & Hp & Hgp' & Hpath)].
    + destruct (convertFiles_keys _ _ _ _ _ _ _ _ H1 Hk1) as [?| ->];
        [by left|right].
      exists profile, gp. split; [left|done].
    + right. exists p, gp'. split; [by right|done].
Qed.

Lemma one_key_one_value (c : gmap string Package) :
  (forall k1 k2, is_Some (c !! k1) -> is_Some (c !! k2) -> k1 = k2) ->
  (length (map_to_list c) <= 1)%nat.
Proof.
  intros Hone. pose proof (NoDup_fst_map_to_list c) as Hnd.
  assert (forall kv, kv ∈ map_to_list c -> is_Some (c !! kv.1)) as Hin.
  { intros [k v] Hkv. apply elem_of_map_to_list in Hkv. by exists v. }
  destruct (map_to_list c) as [|kv1 [|kv2 l]]; simpl; [lia|lia|].
  exfalso. apply NoDup_cons in Hnd as [Hnot _]. apply Hnot.
  rewrite (Hone kv1.1 kv2.1); [simpl; left| |].
  - apply Hin. left.
  - apply Hin. right. left.
Qed.

Lemma short_Permutation {A} (l l1 l2 : list A) :
  (length l <= 1)%nat -> l1 ≡ₚ l -> l2 ≡ₚ l -> l1 = l2.
Proof.
  intros Hlen H1 H2. destruct l as [|x [|y l]]; simpl in Hlen; [| |lia].
  - apply Permutation_nil_r in H1, H2. congruence.
  - apply Permutation_singleton_r in H1, H2. congruence.
Qed.

Lemma convertInput_one_package env AddPackage order1 order2 i filename ps :
  validOrder order1 -> validOrder order2 ->
  (forall profiles,
      ParseProfiles env filename = Done profiles ->
      exists dir, Forall (fun profile => entryPkgPath profile = dir) profiles) ->
  convertInput env AddPackage order1 i filename ps =
  convertInput env AddPackage order2 i filename ps.
Proof.
  intros H1 H2 Hone. unfold convertInput.
  destruct (ParseProfiles env filename) as [profiles| |]; simpl; try done.
  destruct (Hone profiles eq_refl) as [dir Hdir].
  destruct (wrapError _ _) as [packages| |]; simpl; try done.
  destruct (convertEntries env ∅ (mkPkgmap packages) profiles)
    as [c| |] eqn:Hc; simpl; try done.
  do 2 f_equal.
  apply (short_Permutation (map_to_list c).*2); [|apply H1|apply H2].
  rewrite length_fmap. apply one_key_one_value.
  assert (forall k, is_Some (c !! k) ->
            exists gp, mkPkgmap packages !! dir = Some gp /\ PkgPath gp = k)
    as Hkey.
  { intros k Hk.
    destruct (convertEntries_keys _ _ _ _ _ _ Hc Hk)
      as [[? Hk0]|(p & gp & Hp & Hgp & Hpath)].
    - by rewrite lookup_empty in Hk0.
    - exists gp. split; [|done].
      rewrite Forall_forall in Hdir. by rewrite <- (Hdir p Hp). }
  intros k1 k2 Hk1 Hk2.
  destruct (Hkey k1 Hk1) as (gp1 & Hgp1 & <-).
  destruct (Hkey k2 Hk2) as (gp2 & Hgp2 & <-).
  congruence.
Qed.

(** X26: when the entries of each profile file are of one package
    directory, the bytes that [ConvertProfiles] returns do not depend on
    the order in which the runtime ranges over the converter, whatever
    the accumulator [AddPackage] does: there is one package to range
    over. *)
Theorem one_package_inputs_any_order env AddPackage order1 order2 filenames :
  validOrder order1 -> validOrder order2 ->
  Forall (fun filename =>
            forall profiles,
              ParseProfiles env filename = Done profiles ->
              exists dir,
                Forall (fun profile => entryPkgPath profile = dir) profiles)
    filenames ->
  ConvertProfiles env AddPackage order1 filenames =
  ConvertProfiles env AddPackage order2 filenames.
Proof.
  intros H1 H2 Hone. unfold ConvertProfiles. f_equal.
  generalize 0%nat at 1 2 as i. generalize (@nil Package) as ps.
  induction Hone as [|filename rest Hfile _ IH]; intros ps i; [done|].
  simpl. rewrite (convertInput_one_package env AddPackage order1 order2) by done.
  destruct (convertInput env AddPackage order2 i filename ps); simpl; auto.
Qed.

Lemma one_package_inputs_any_order_witness :
  ConvertProfiles sampleEnv AddPackage_append ascending ["cover.out"; "cover.out"] =
    ConvertProfiles sampleEnv AddPackage_append descending ["cover.out"; "cover.out"]
  /\ ConvertProfiles sampleEnv AddPackage_append descending ["cover.out"; "cover.out"] =
     sampleEncoder [{| PName := "example.com/m";
                       Functions := sampleFunctions ++ sampleFunctions |}].
Proof.
  split; [|reflexivity].
  apply one_package_inputs_any_order.
  - exact ascending_valid.
  - exact descending_valid.
  - repeat constructor; intros profiles H; injection H as <-; eexists;
      repeat constructor.
Defined.
